(** * deepvoice3_pytorch/modules.py: a shallow embedding and its properties

    The module assembles layers of a text-to-speech network: the position
    encoding table, the layer factories, the highway convolution block and
    the length-to-mask helper.

    Numbers.  The tensors hold the framework's floating-point numbers.  They
    are kept abstract here: a type [F] with exactly the operations the code
    applies to them ([Scalar]).  A dtype conversion ([.float()]) is the
    identity on [F].  No algebraic law is built in: a theorem that needs one
    states it as a hypothesis, and the instance over the real numbers
    ([R_scalar]) satisfies all of them.

    Tensors.  A tensor is a nested list, outermost axis first; its sizes are
    read off the lists, so an axis behind an empty one has size 0.  Slices
    follow Python's rules: they select the indices in range and never
    raise.  Python's exceptions are the [Raise] results of the [result]
    monad. *)

From Stdlib Require Import ZArith Reals Lra Lia.
From stdpp Require Import base tactics option list.

(** ** Scalars *)

Class Scalar (F : Type) := {
  of_Z : Z → F;              (* an int used as a float *)
  fhalf : F;                 (* the literal 0.5 *)
  fadd : F → F → F;
  fsub : F → F → F;
  fmul : F → F → F;
  fdiv : F → F → F;
  fpow : F → F → F;          (* np.power *)
  fsqrt : F → F;             (* math.sqrt *)
  fsin : F → F;              (* torch.sin *)
  fcos : F → F;              (* torch.cos *)
  fsigmoid : F → F;          (* F.sigmoid *)
}.

Definition of_nat `{Scalar F} (n : nat) : F := of_Z (Z.of_nat n).

Global Instance scalar_inhabited `{Scalar F} : Inhabited F := populate (of_Z 0).

(** ** Exceptions *)

Inductive exn :=
  | AssertionError
  | IndexError
  | ZeroDivisionError
  | ValueError
  | RuntimeError.

Inductive result (A : Type) :=
  | Ok (a : A)
  | Raise (e : exn).
Arguments Ok {A} a.
Arguments Raise {A} e.

Global Instance result_ret : MRet result := λ A, Ok.
Global Instance result_bind : MBind result := λ A B f m,
  match m with Ok a => f a | Raise e => Raise e end.

(** [l[i]], with Python's [IndexError] past the end. *)
Definition getitem {A} (l : list A) (i : nat) : result A :=
  match l !! i with Some x => Ok x | None => Raise IndexError end.

(** [l[i] = v], with Python's [IndexError] past the end. *)
Definition setitem {A} (l : list A) (i : nat) (v : A) : result (list A) :=
  if decide (i < length l) then Ok (<[i := v]> l) else Raise IndexError.

(** A left-to-right loop whose body may raise. *)
Fixpoint foldM {A B} (f : B → A → result B) (b : B) (l : list A) : result B :=
  match l with
  | [] => Ok b
  | x :: l => b' ← f b x; foldM f b' l
  end.

(** The indices that the slice [start::step] selects on an axis of length
    [n]: [start], [start + step], ... below [n], in increasing order. *)
Definition slice_indices (start step n : nat) : list nat :=
  filter (λ i, start ≤ i ∧ (i - start) `mod` step = 0) (seq 0 n).

(** ** Position encoding *)

Section Position.
Context `{Scalar F}.

(** An array is one- or two-dimensional; [np.array] of an empty list of
    rows is the one-dimensional empty array. *)
Inductive ndarray :=
  | Vec (v : list F)
  | Mat (m : list (list F)).

Definition np_array (rows : list (list F)) : ndarray :=
  match rows with [] => Vec [] | _ => Mat rows end.

(** The size of axis 1. *)
Definition ncols (m : list (list F)) : nat :=
  match m with [] => 0 | row :: _ => length row end.

(** [m[rows, cols]] for two lists of indices. *)
Definition getitem2 (m : list (list F)) (rows cols : list nat)
  : result (list (list F)) :=
  mapM (λ r, row ← getitem m r; mapM (getitem row) cols) rows.

(** [row[cols] = vals]. *)
Definition setitem_row (row : list F) (cols : list nat) (vals : list F)
  : result (list F) :=
  foldM (λ acc cv, setitem acc cv.1 cv.2) row (zip cols vals).

(** [m[rows, cols] = vals]. *)
Definition setitem2 (m : list (list F)) (rows cols : list nat)
    (vals : list (list F)) : result (list (list F)) :=
  foldM (λ acc rv,
           row ← getitem acc rv.1;
           row' ← setitem_row row cols rv.2;
           setitem acc rv.1 row')
        m (zip rows vals).

(** [y[1:, start::2] = f(y[1:, start::2])]; indexing a one-dimensional
    tensor with two indices raises. *)
Definition assign_sliced (f : F → F) (start : nat) (y : ndarray)
  : result ndarray :=
  match y with
  | Vec _ => Raise IndexError
  | Mat m =>
      let rows := slice_indices 1 1 (length m) in
      let cols := slice_indices start 2 (ncols m) in
      sub ← getitem2 m rows cols;
      m' ← setitem2 m rows cols (map (map f) sub);
      Ok (Mat m')
  end.

(** [position_rate * pos / np.power(10000, 2 * i / d_pos_vec)] *)
Definition raw_entry (position_rate : F) (d_pos_vec pos i : nat) : F :=
  fdiv (fmul position_rate (of_nat pos))
       (fpow (of_Z 10000) (fdiv (of_nat (2 * i)) (of_nat d_pos_vec))).

Definition raw_row (position_rate : F) (d_pos_vec pos : nat) : list F :=
  if decide (pos ≠ 0)
  then map (raw_entry position_rate d_pos_vec pos) (seq 0 d_pos_vec)
  else replicate d_pos_vec (of_Z 0).

Definition position_encoding_init (n_position d_pos_vec : nat)
    (position_rate : F) (sinusoidal : bool) : result ndarray :=
  let position_enc :=
    np_array (map (raw_row position_rate d_pos_vec) (seq 0 n_position)) in
  if sinusoidal then
    position_enc ← assign_sliced fsin 0 position_enc;
    assign_sliced fcos 1 position_enc
  else Ok position_enc.

(** [w * x.clone()] *)
Definition scale (w : F) (x : ndarray) : ndarray :=
  match x with
  | Vec v => Vec (map (fmul w) v)
  | Mat m => Mat (map (map (fmul w)) m)
  end.

Definition sinusoidal_encode (x : ndarray) (w : F) : result ndarray :=
  let y := scale w x in
  y ← assign_sliced fsin 0 y;
  assign_sliced fcos 1 y.

(** The weight that [SinusoidalEncoding.__init__] stores. *)
Definition SinusoidalEncoding_weight (num_embeddings embedding_dim : nat)
  : result ndarray :=
  position_encoding_init num_embeddings embedding_dim (of_Z 1) false.

(** The overwrite that [assign_sliced] performs, entry by entry. *)
Definition overwrite (f : F → F) (start : nat) (m : list (list F))
  : list (list F) :=
  imap (λ r row,
          if decide (1 ≤ r)
          then imap (λ c v, if decide (start ≤ c ∧ (c - start) `mod` 2 = 0)
                            then f v else v) row
          else row) m.

(** All rows have [D] entries. *)
Definition rect (m : list (list F)) (D : nat) : Prop :=
  Forall (λ row, length row = D) m.

Definition raw_table (rate : F) (N D : nat) : list (list F) :=
  map (raw_row rate D) (seq 0 N).

(** *** The sinusoidal encoding layer *)

(** The layer keeps the base table and the options it hands to the lookup
    primitive; [norm_type], [scale_grad_by_freq] and [sparse] only matter to
    the renormalisation and to gradients. *)
Record SinusoidalEncoding := {
  se_weight : ndarray;
  se_padding_idx : option Z;
  se_max_norm : option F;
}.

(** [SinusoidalEncoding.__init__]: the weight becomes the raw table of
    rate 1.0. *)
Definition SinusoidalEncoding_init (num_embeddings embedding_dim : nat)
    (padding_idx : option Z) (max_norm : option F) : result SinusoidalEncoding :=
  weight ← position_encoding_init num_embeddings embedding_dim (of_Z 1) false;
  Ok {| se_weight := weight;
        se_padding_idx := padding_idx;
        se_max_norm := max_norm |}.

(** The forward value of the framework's embedding lookup: the rows of
    [weight] at the indices [x], an index outside the table raising.  With
    a [max_norm] the framework first renormalises the rows looked up
    ([renorm]);
    [padding_idx] only stops gradients. *)
Definition Embedding_apply
    (renorm : F → list (list Z) → list (list F) → list (list F))
    (x : list (list Z)) (weight : ndarray) (padding_idx : Z)
    (max_norm : option F) : result (list (list (list F))) :=
  match weight with
  | Vec _ => Raise RuntimeError
  | Mat m =>
      let m := match max_norm with Some n => renorm n x m | None => m end in
      mapM (mapM (λ i : Z, if decide (0 ≤ i)%Z then getitem m (Z.to_nat i)
                           else Raise IndexError)) x
  end.

(** [SinusoidalEncoding.forward] *)
Definition SinusoidalEncoding_forward
    (renorm : F → list (list Z) → list (list F) → list (list F))
    (self : SinusoidalEncoding)
    (x : list (list Z)) (w : F) : result (list (list (list F))) :=
  weight ← sinusoidal_encode (se_weight self) w;
  let padding_idx :=
    match se_padding_idx self with Some p => p | None => (-1)%Z end in
  Embedding_apply renorm x weight padding_idx (se_max_norm self).

End Position.

Arguments ndarray : clear implicits.
Arguments SinusoidalEncoding : clear implicits.

(** ** The length-to-mask helper

    The mask is a byte tensor used as a boolean mask: 1 is true, 0 is false. *)

(** [memory.size(1)] *)
Definition size1 {A} (t : list (list A)) : nat :=
  match t with [] => 0 | r :: _ => length r end.

(** [row[:l] = 1] *)
Definition fill_prefix (l : nat) (row : list Z) : list Z :=
  replicate (l `min` length row) 1%Z ++ drop l row.

(** [~] on a byte mask is the framework's mask negation, [1 - mask] in
    8-bit arithmetic. *)
Definition byte_invert (b : Z) : Z := ((1 - b) `mod` 256)%Z.

(** [enumerate] *)
Definition enumerate {A} (l : list A) : list (nat * A) := zip (seq 0 (length l)) l.

Definition get_mask_from_lengths {A} (memory : list (list (list A)))
    (memory_lengths : list nat) : result (list (list Z)) :=
  let mask := replicate (length memory) (replicate (size1 memory) 0%Z) in
  mask ← foldM (λ mask il,
                  row ← getitem mask il.1;
                  setitem mask il.1 (fill_prefix il.2 row))
               mask (enumerate memory_lengths);
  Ok (map (map byte_invert) mask).

(** What the loop over [enumerate(memory_lengths)] leaves in row [b], the
    enumeration starting at index [s]. *)
Definition filled (s : nat) (ls : list nat) (b : nat) (row : list Z) : list Z :=
  if decide (s ≤ b)
  then from_option (λ l, fill_prefix l row) row (ls !! (b - s))
  else row.

(** The truth value of a mask byte, and the mask read as booleans. *)
Definition byte_true (b : Z) : bool := bool_decide (b ≠ 0%Z).
Definition mask_bools (mask : list (list Z)) : list (list bool) :=
  map (map byte_true) mask.

(** ** Layers and their factories *)

(** A tensor with three axes. *)
Abbreviation tensor3 F := (list (list (list F))).

Inductive prim :=
  | Conv1d_cls
  | ConvTranspose1d_cls
  | LinearizedConvolution_cls
  | ConvTBC_cls.

(** Construction runs against the log of the primitives built so far. *)
Definition ctor (A : Type) : Type := list prim → list prim * result A.

Global Instance ctor_ret : MRet ctor := λ A a log, (log, Ok a).
Global Instance ctor_bind : MBind ctor := λ A B f m log,
  match m log with
  | (log', Ok a) => f a log'
  | (log', Raise e) => (log', Raise e)
  end.

Definition raise {A} (e : exn) : ctor A := λ log, (log, Raise e).
Definition lift {A} (r : result A) : ctor A := λ log, (log, r).
Definition built (p : prim) : ctor unit := λ log, (log ++ [p], Ok ()).
Definition py_assert (b : bool) : ctor unit :=
  if b then mret () else raise AssertionError.

(** The keyword arguments that the factories pass through. *)
Record kwargs := {
  kw_padding : option Z;
  kw_dilation : option Z;
}.

Section Layers.
Context `{Scalar F}.

Record layer := {
  l_cls : prim;
  l_in_channels : Z;
  l_out_channels : Z;
  l_kernel_size : Z;
  l_padding : Z;
  l_dilation : Z;
  l_weight : tensor3 F;
  l_bias : list F;
  l_weight_norm : option Z;        (* the axis given to weight_norm *)
  l_input_buffer : option (tensor3 F); (* the incremental decoding buffer *)
}.

(** The random draw [normal_(mean, std)] of a weight tensor. *)
Variable normal_ : F → F → tensor3 F.

(** The constructor of a primitive: the framework's defaults are
    padding 0 and dilation 1; the buffer starts cleared. *)
Definition construct (cls : prim) (in_channels out_channels kernel_size : Z)
    (kw : kwargs) : ctor layer :=
  _ ← built cls;
  mret {| l_cls := cls;
          l_in_channels := in_channels;
          l_out_channels := out_channels;
          l_kernel_size := kernel_size;
          l_padding := default 0%Z (kw_padding kw);
          l_dilation := default 1%Z (kw_dilation kw);
          l_weight := [];
          l_bias := [];
          l_weight_norm := None;
          l_input_buffer := None |}.

(** [math.sqrt((std_mul * (1.0 - dropout)) / (m.kernel_size[0] * in_channels))];
    dividing a float by the int 0 raises. *)
Definition init_std (std_mul dropout : F) (m : layer) (in_channels : Z)
  : result F :=
  let denom := (l_kernel_size m * in_channels)%Z in
  if decide (denom = 0%Z) then Raise ZeroDivisionError
  else Ok (fsqrt (fdiv (fmul std_mul (fsub (of_Z 1) dropout)) (of_Z denom))).

(** [m.weight.data.normal_(mean=0, std=std); m.bias.data.zero_();
    return nn.utils.weight_norm(m, dim)] *)
Definition init_and_normalize (m : layer) (std : F) (dim : Z) : layer :=
  {| l_cls := l_cls m;
     l_in_channels := l_in_channels m;
     l_out_channels := l_out_channels m;
     l_kernel_size := l_kernel_size m;
     l_padding := l_padding m;
     l_dilation := l_dilation m;
     l_weight := normal_ (of_Z 0) std;
     l_bias := replicate (Z.to_nat (l_out_channels m)) (of_Z 0);
     l_weight_norm := Some dim;
     l_input_buffer := l_input_buffer m |}.

(** [std_mul] is [None] when the caller leaves it out. *)
Definition Conv1d (in_channels out_channels kernel_size : Z) (dropout : F)
    (std_mul : option F) (kw : kwargs) : ctor layer :=
  let std_mul := default (of_Z 4) std_mul in
  m ← construct Conv1d_cls in_channels out_channels kernel_size kw;
  std ← lift (init_std std_mul dropout m in_channels);
  mret (init_and_normalize m std 0).


(** [dilation] is a tuple; [dilation[0]] raises on the empty tuple. *)
Definition LinearizedConv1d (in_channels out_channels kernel_size : Z)
    (dilation : list Z) (std_mul : option F) (dropout : F) (kw : kwargs)
  : ctor layer :=
  let std_mul := default (of_Z 4) std_mul in
  d0 ← lift (getitem dilation 0);
  _ ← py_assert (bool_decide (d0 = 1%Z));
  m ← construct LinearizedConvolution_cls in_channels out_channels kernel_size kw;
  std ← lift (init_std std_mul dropout m in_channels);
  mret (init_and_normalize m std 0).

Definition ConvTBC (in_channels out_channels kernel_size : Z)
    (dilation : list Z) (std_mul : option F) (dropout : F) (kw : kwargs)
  : ctor layer :=
  let std_mul := default (of_Z 4) std_mul in
  d0 ← lift (getitem dilation 0);
  _ ← py_assert (bool_decide (d0 = 1%Z));
  m ← construct ConvTBC_cls in_channels out_channels kernel_size kw;
  std ← lift (init_std std_mul dropout m in_channels);
  mret (init_and_normalize m std 2).

(** ** The highway convolution block *)

Record HighwayConv1d := {
  causal : bool;
  dropout : F;
  glu : bool;
  training : bool;
  conv : layer;
}.

(** Lines 112-117: the padding chosen when the caller gives none. *)
Definition default_padding (causal : bool) (kernel_size dilation : Z) : Z :=
  if causal then ((kernel_size - 1) * dilation)%Z
  else ((kernel_size - 1) `div` 2 * dilation)%Z.

(** A module starts in training mode. *)
Definition HighwayConv1d_init (in_channels out_channels kernel_size : Z)
    (padding : option Z) (dilation : Z) (causal : bool) (dropout : F)
    (std_mul : option F) (glu : bool) : ctor HighwayConv1d :=
  let std_mul :=
    match std_mul with
    | None => if glu then of_Z 4 else of_Z 1
    | Some s => s
    end in
  let padding :=
    match padding with
    | None => default_padding causal kernel_size dilation
    | Some p => p
    end in
  conv ← Conv1d in_channels (2 * out_channels) kernel_size dropout
                (Some std_mul)
                {| kw_padding := Some padding; kw_dilation := Some dilation |};
  mret {| causal := causal; dropout := dropout; glu := glu;
          training := true; conv := conv |}.

End Layers.

Arguments layer : clear implicits.
Arguments HighwayConv1d : clear implicits.

(** ** Tensor operations of the framework *)

Section Tensors.
Context `{Scalar F}.

(** An elementwise operation on one axis, with the framework's
    broadcasting: equal sizes pair up, a size of 1 is repeated, anything
    else is a shape error. *)
Definition broadcast2 {A B C} (f : A → B → result C)
    (xs : list A) (ys : list B) : result (list C) :=
  if decide (length xs = length ys) then mapM (λ xy, f xy.1 xy.2) (zip xs ys)
  else match xs, ys with
       | [x], _ => mapM (f x) ys
       | _, [y] => mapM (λ x, f x y) xs
       | _, _ => Raise RuntimeError
       end.

Definition tzip (op : F → F → F) (x y : tensor3 F) : result (tensor3 F) :=
  broadcast2 (broadcast2 (broadcast2 (λ a b, Ok (op a b)))) x y.

Definition tmap (f : F → F) (x : tensor3 F) : tensor3 F := map (map (map f)) x.

(** The two axes that the block splits along: [dim=1] and [dim=-1]. *)
Inductive axis := Dim1 | DimLast.

(** [x.size(dim)] *)
Definition tsize (dim : axis) (x : tensor3 F) : nat :=
  match dim with
  | Dim1 => size1 x
  | DimLast => match x with [] => 0 | ex :: _ => size1 ex end
  end.

(** The slice [lo:hi] along [dim]. *)
Definition tslice (dim : axis) (lo hi : nat) (x : tensor3 F) : tensor3 F :=
  match dim with
  | Dim1 => map (λ ex, take (hi - lo) (drop lo ex)) x
  | DimLast => map (map (λ row, take (hi - lo) (drop lo row))) x
  end.

(** [x.split(split_size, dim)]: chunks of [split_size] along [dim], the last
    one shorter when the size is not a multiple. *)
Definition tsplit (split_size : nat) (dim : axis) (x : tensor3 F)
  : result (list (tensor3 F)) :=
  if decide (split_size = 0) then Raise RuntimeError
  else
    let n := tsize dim x in
    let chunks := (n + split_size - 1) `div` split_size in
    Ok (map (λ i, tslice dim (i * split_size) ((i + 1) * split_size) x)
            (seq 0 chunks)).

(** [a, b = ...]: unpacking needs exactly two values. *)
Definition unpack2 {A} (l : list A) : result (A * A) :=
  match l with [a; b] => Ok (a, b) | _ => Raise ValueError end.

(** [F.glu(x, dim)]: the first half times the sigmoid of the second half;
    the size along [dim] must be even. *)
Definition F_glu (x : tensor3 F) (dim : axis) : result (tensor3 F) :=
  let n := tsize dim x in
  if decide (n `mod` 2 = 0) then
    tzip fmul (tslice dim 0 (n `div` 2) x)
              (tmap fsigmoid (tslice dim (n `div` 2) n x))
  else Raise RuntimeError.

(** [F.dropout(x, p, training)]: the identity outside training; in training
    the random zeroing and rescaling [drop] supplied by the caller. *)
Definition F_dropout (drop : F → tensor3 F → tensor3 F) (x : tensor3 F) (p : F)
    (training : bool) : tensor3 F :=
  if training then drop p x else x.

(** ** The convolution of the block *)

(** [bias + sum over c, j of w[c][j] * window[c][j]], channel by channel
    and tap by tap. *)
Definition dot_acc (acc : F) (w x : list F) : F :=
  foldl (λ a wx, fadd a (fmul wx.1 wx.2)) acc (zip w x).

Definition affine (b : F) (w window : list (list F)) : F :=
  foldl (λ a wx, dot_acc a wx.1 wx.2) b (zip w window).

Definition zeros (n : nat) : list F := replicate n (of_Z 0).

(** The taps that output step [t] reads from one example padded in time:
    [window[c][j] = xpad[c][t + j * dilation]]. *)
Definition batch_window (xpad : list (list F)) (k d t : nat) : list (list F) :=
  map (λ ch, map (λ j, ch !!! (t + j * d)) (seq 0 k)) xpad.

(** Entry [o, t] of the convolution of one example (in_channels, T):
    the bias of output channel [o] plus its filter applied to the taps of
    step [t]. *)
Definition conv_entry (m : layer F) (ex : list (list F)) (o t : nat) : F :=
  affine (l_bias m !!! o) (l_weight m !!! o)
         (batch_window (map (λ ch, zeros (Z.to_nat (l_padding m)) ++ ch
                                   ++ zeros (Z.to_nat (l_padding m))) ex)
                       (Z.to_nat (l_kernel_size m)) (Z.to_nat (l_dilation m)) t).

(** Modelled from the spec: the batch call of the block's convolution
    ([.conv.Conv1d], which is not among the sources) is "the full-sequence
    convolution" of the framework: zero padding of [padding] steps on both
    sides of the time axis, stride 1, taps [dilation] steps apart, so an
    input of [T] steps gives [T + 2 * padding - dilation * (kernel_size - 1)]
    steps, and a shape error when that is not positive or the channel
    count is not [in_channels].  The input is (B, in_channels, T), the
    weight (out_channels, in_channels, kernel_size). *)
Definition conv_forward (m : layer F) (x : tensor3 F) : result (tensor3 F) :=
  let k := Z.to_nat (l_kernel_size m) in
  let d := Z.to_nat (l_dilation m) in
  let p := Z.to_nat (l_padding m) in
  let T := tsize DimLast x in
  if decide (1 ≤ l_kernel_size m ∧ 1 ≤ l_dilation m ∧ 0 ≤ l_padding m)%Z then
    if decide (tsize Dim1 x = Z.to_nat (l_in_channels m)
               ∧ d * (k - 1) + 1 ≤ T + 2 * p) then
      let L := T + 2 * p - d * (k - 1) in
      Ok (map (λ ex, map (λ o, map (λ t, conv_entry m ex o t) (seq 0 L))
                         (seq 0 (Z.to_nat (l_out_channels m))))
              x)
    else Raise RuntimeError
  else Raise RuntimeError.

(** The layer with its incremental buffer replaced. *)
Definition with_buffer (m : layer F) (buf : option (tensor3 F)) : layer F :=
  {| l_cls := l_cls m;
     l_in_channels := l_in_channels m;
     l_out_channels := l_out_channels m;
     l_kernel_size := l_kernel_size m;
     l_padding := l_padding m;
     l_dilation := l_dilation m;
     l_weight := l_weight m;
     l_bias := l_bias m;
     l_weight_norm := l_weight_norm m;
     l_input_buffer := buf |}.

(** The taps read from the buffer of one example:
    [window[c][j] = buffer[j * dilation][c]]. *)
Definition buffer_window (buf : list (list F)) (cin k d : nat) : list (list F) :=
  map (λ c, map (λ j, (buf !!! (j * d)) !!! c) (seq 0 k)) (seq 0 cin).

(** Modelled from the spec: the incremental call of the block's convolution
    "maintains and updates a sliding buffer of past inputs sized to the
    kernel's receptive field", [(kernel_size - 1) * dilation + 1] steps,
    "created lazily on first incremental call" (filled with zeros) and
    shifted by one step on each later call; the newest step goes last.  The
    input is (B, steps, in_channels) and its last step is consumed; the
    output is (B, 1, out_channels). *)
Definition conv_incremental_forward (m : layer F) (x : tensor3 F)
  : result (layer F * tensor3 F) :=
  let k := Z.to_nat (l_kernel_size m) in
  let d := Z.to_nat (l_dilation m) in
  let cin := Z.to_nat (l_in_channels m) in
  let R := (k - 1) * d + 1 in
  if decide (1 ≤ l_kernel_size m ∧ 1 ≤ l_dilation m)%Z then
    newest ← mapM (λ ex, match last ex with
                         | Some row => if decide (length row = cin) then Ok row
                                       else Raise RuntimeError
                         | None => Raise IndexError
                         end) x;
    let old :=
      match l_input_buffer m with
      | None => replicate (length x) (replicate R (zeros cin))
      | Some buf => buf
      end in
    if decide (length old = length newest) then
      let buf := zip_with (λ b row, drop 1 b ++ [row]) old newest in
      let out :=
        map (λ b, [map (λ o, affine (l_bias m !!! o) (l_weight m !!! o)
                                    (buffer_window b cin k d))
                       (seq 0 (Z.to_nat (l_out_channels m)))])
            buf in
      Ok (with_buffer m (Some buf), out)
    else Raise RuntimeError
  else Raise RuntimeError.

(** [conv.clear_buffer()] *)
Definition conv_clear_buffer (m : layer F) : layer F := with_buffer m None.

(** ** Forward passes of the block *)

Definition with_conv (blk : HighwayConv1d F) (m : layer F) : HighwayConv1d F :=
  {| causal := causal blk; dropout := dropout blk; glu := glu blk;
     training := training blk; conv := m |}.

(** [HighwayConv1d._forward]; the block comes back with the buffer of its
    convolution as the call left it. *)
Definition _forward (drop : F → tensor3 F → tensor3 F) (blk : HighwayConv1d F)
    (x : tensor3 F) (is_incremental : bool)
  : result (HighwayConv1d F * tensor3 F) :=
  let residual := x in
  let x := F_dropout drop x (dropout blk) (training blk) in
  '(blk, splitdim, x) ←
    (if is_incremental then
       '(m, x) ← conv_incremental_forward (conv blk) x;
       Ok (with_conv blk m, DimLast, x)
     else
       x ← conv_forward (conv blk) x;
       let x := if causal blk then tslice DimLast 0 (tsize DimLast residual) x
                else x in
       Ok (blk, Dim1, x));
  if glu blk then
    x ← F_glu x splitdim;
    s ← tzip fadd x residual;
    Ok (blk, tmap (λ v, fmul v (fsqrt fhalf)) s)
  else
    '(a, b) ← tsplit (tsize splitdim x `div` 2) splitdim x ≫= unpack2;
    let T := tmap fsigmoid b in
    l ← tzip fmul T a;
    r ← tzip fmul (tmap (λ v, fsub (of_Z 1) v) T) residual;
    s ← tzip fadd l r;
    Ok (blk, s).

Definition forward drop blk x := _forward drop blk x false.
Definition incremental_forward drop blk x := _forward drop blk x true.
Definition clear_buffer (blk : HighwayConv1d F) : HighwayConv1d F :=
  with_conv blk (conv_clear_buffer (conv blk)).

(** [T] incremental calls in a row, each on one time step; the outputs
    come back in call order. *)
Fixpoint incremental_run (drop : F → tensor3 F → tensor3 F) (blk : HighwayConv1d F)
    (steps : list (tensor3 F)) : result (HighwayConv1d F * list (tensor3 F)) :=
  match steps with
  | [] => Ok (blk, [])
  | x :: steps =>
      '(blk, y) ← incremental_forward drop blk x;
      '(blk, ys) ← incremental_run drop blk steps;
      Ok (blk, y :: ys)
  end.

(** Time step [t] of a batch input (B, C, T), laid out (B, 1, C) as the
    incremental call takes it. *)
Definition time_step (x : tensor3 F) (t : nat) : tensor3 F :=
  map (λ ex, [map (λ ch, ch !!! t) ex]) x.

(** [torch.cat(ys, dim=1)] of (B, 1, C) outputs: (B, T, C). *)
Definition cat_time (B : nat) (ys : list (tensor3 F)) : tensor3 F :=
  map (λ b, mjoin (map (λ y, y !!! b) ys)) (seq 0 B).

(** Axes 1 and 2 exchanged: (B, C, T) to (B, T, C). *)
Definition transpose12 (T : nat) (x : tensor3 F) : tensor3 F :=
  map (λ ex, map (λ t, map (λ ch, ch !!! t) ex) (seq 0 T)) x.

(** The tensor of shape (B, C, T) with entry [f b c t] at [b, c, t]. *)
Definition tab {A} (n : nat) (f : nat → A) : list A := map f (seq 0 n).
Definition tab3 (B C T : nat) (f : nat → nat → nat → F) : tensor3 F :=
  tab B (λ b, tab C (λ c, tab T (f b c))).

(** The entry at [b, c, t]. *)
Definition at3 (x : tensor3 F) (b c t : nat) : F := ((x !!! b) !!! c) !!! t.

(** What the block computes at one position from the content [a] and the
    gate logit [g] of the convolution output and the residual [x]. *)
Definition gate (glu : bool) (a g x : F) : F :=
  if glu then fmul (fadd (fmul a (fsigmoid g)) x) (fsqrt fhalf)
  else fadd (fmul (fsigmoid g) a) (fmul (fsub (of_Z 1) (fsigmoid g)) x).

(** The buffer of a causal convolution after [n] incremental steps over
    the input [x]: [p + 1] rows, row [s] holding time step [n + s - p - 1]
    of [x], or zeros before the start. *)
Definition buffer_after (x : tensor3 F) (B C p n : nat) : tensor3 F :=
  tab3 B (p + 1) C (λ b s c,
    if decide (p + 1 ≤ n + s) then at3 x b c (n + s - p - 1) else of_Z 0).

(** The block at position [b, c, t] of the batch input. *)
Definition block_entry (blk : HighwayConv1d F) (x : tensor3 F) (C b c t : nat)
  : F :=
  gate (glu blk) (conv_entry (conv blk) (x !!! b) c t)
       (conv_entry (conv blk) (x !!! b) (C + c) t) (at3 x b c t).

(** The buffer before step [n]: absent before the first step. *)
Definition buffer_state (x : tensor3 F) (B C P n : nat)
    (buf : option (tensor3 F)) : Prop :=
  buf = Some (buffer_after x B C P n) ∨ n = 0 ∧ buf = None.

(** Every channel of every example has [T] time steps. *)
Definition time_len (x : tensor3 F) (T : nat) : Prop :=
  Forall (Forall (λ ch : list F, length ch = T)) x.

(** A tensor of shape (B, C, T). *)
Definition shape3 (x : tensor3 F) (B C T : nat) : Prop :=
  length x = B ∧
  Forall (λ ex, length ex = C ∧ Forall (λ ch, length ch = T) ex) x.

End Tensors.

(** ** A small block to run

    One channel, kernel size 3, dilation 1, with the padding that
    [HighwayConv1d.__init__] picks; the content filter reads the last tap,
    the gate filter is zero.  The block is in evaluation mode. *)

Section Example.
Context `{Scalar F}.

Definition ex_conv (padding : Z) : layer F :=
  {| l_cls := Conv1d_cls;
     l_in_channels := 1;
     l_out_channels := 2;
     l_kernel_size := 3;
     l_padding := padding;
     l_dilation := 1;
     l_weight := [[[of_Z 0; of_Z 0; of_Z 1]]; [[of_Z 0; of_Z 0; of_Z 0]]];
     l_bias := [of_Z 0; of_Z 0];
     l_weight_norm := Some 0%Z;
     l_input_buffer := None |}.

Definition ex_blk (causal glu : bool) : HighwayConv1d F :=
  {| causal := causal; dropout := of_Z 0; glu := glu; training := false;
     conv := ex_conv (default_padding causal 3 1) |}.

(** One example, one channel, two time steps. *)
Definition ex_x : tensor3 F := [[[of_Z 0; of_Z 1]]].

(** The convolution of one output channel at one step: three taps. *)
Definition dot3 (w0 w1 w2 x0 x1 x2 : F) : F :=
  fadd (fadd (fadd (of_Z 0) (fmul w0 x0)) (fmul w1 x1)) (fmul w2 x2).

(** A block in evaluation mode with [cin] input and [cout] output
    channels, kernel size [k], dilation 1, the padding that
    [HighwayConv1d.__init__] picks, and all weights zero. *)
Definition ex_block (causal glu : bool) (cin cout k : Z) : HighwayConv1d F :=
  {| causal := causal; dropout := of_Z 0; glu := glu; training := false;
     conv :=
       {| l_cls := Conv1d_cls;
          l_in_channels := cin;
          l_out_channels := 2 * cout;
          l_kernel_size := k;
          l_padding := default_padding causal k 1;
          l_dilation := 1;
          l_weight := replicate (Z.to_nat (2 * cout))
                        (replicate (Z.to_nat cin)
                           (replicate (Z.to_nat k) (of_Z 0)));
          l_bias := replicate (Z.to_nat (2 * cout)) (of_Z 0);
          l_weight_norm := Some 0%Z;
          l_input_buffer := None |} |}.

(** One example, two channels, three time steps. *)
Definition ex_x23 : tensor3 F :=
  [[[of_Z 0; of_Z 1; of_Z 2]; [of_Z 3; of_Z 4; of_Z 5]]].

(** Dropout that keeps everything. *)
Definition no_drop (p : F) (x : tensor3 F) : tensor3 F := x.

End Example.

(** ** The real numbers as scalars *)

Definition Rsigmoid (x : R) : R := (1 / (1 + exp (- x)))%R.

Global Instance R_scalar : Scalar R := {|
  of_Z := IZR;
  fhalf := (1 / 2)%R;
  fadd := Rplus;
  fsub := Rminus;
  fmul := Rmult;
  fdiv := Rdiv;
  fpow := Rpower;
  fsqrt := sqrt;
  fsin := sin;
  fcos := cos;
  fsigmoid := Rsigmoid;
|}.

(** * Properties *)

#[local] Arguments Nat.modulo : simpl never.
#[local] Arguments Nat.div : simpl never.
#[local] Arguments Z.mul : simpl never.

(** ** The result monad and checked indexing *)

Lemma bind_Ok {A B} (a : A) (f : A → result B) : Ok a ≫= f = f a.
Proof. done. Qed.

Lemma mapM_Ok {A B} (g : A → result B) (h : A → B) (l : list A) :
  Forall (λ x, g x = Ok (h x)) l → mapM g l = Ok (map h l).
Proof.
  induction 1 as [|x l Hx _ IH]; [done|].
  cbn. rewrite Hx. cbn. by rewrite IH.
Qed.

Lemma getitem_Ok {A} `{!Inhabited A} (l : list A) (i : nat) :
  i < length l → getitem l i = Ok (l !!! i).
Proof.
  intros Hi. unfold getitem.
  destruct (lookup_lt_is_Some_2 l i Hi) as [x Hx].
  rewrite Hx. by rewrite (list_lookup_total_correct _ _ _ Hx).
Qed.

Lemma setitem_Ok {A} (l : list A) (i : nat) (v : A) :
  i < length l → setitem l i v = Ok (<[i := v]> l).
Proof. intros Hi. unfold setitem. by rewrite decide_True. Qed.

Lemma elem_of_slice_indices (start step n i : nat) :
  i ∈ slice_indices start step n ↔
  (start ≤ i ∧ (i - start) `mod` step = 0) ∧ i < n.
Proof.
  unfold slice_indices. rewrite list_elem_of_filter, elem_of_seq. lia.
Qed.

Lemma NoDup_slice_indices (start step n : nat) :
  NoDup (slice_indices start step n).
Proof. apply NoDup_filter, NoDup_seq. Qed.

(** ** Position encoding *)

Section PositionFacts.
Context `{Scalar F}.

Lemma setitem_row_spec (g : nat → F) (cols : list nat) (row : list F) :
  Forall (λ c, c < length row) cols →
  setitem_row row cols (map g cols)
  = Ok (imap (λ c v, if decide (c ∈ cols) then g c else v) row).
Proof.
  unfold setitem_row. revert row.
  induction cols as [|c cs IH]; intros row Hcols.
  - cbn. f_equal. apply list_eq. intros i.
    rewrite list_lookup_imap. destruct (row !! i); [|done]. cbn.
    by rewrite decide_False by apply not_elem_of_nil.
  - apply Forall_cons in Hcols as [Hc Hcs]. cbn.
    rewrite setitem_Ok by done. cbn.
    rewrite IH by (rewrite length_insert; done).
    f_equal. apply list_eq. intros i. rewrite !list_lookup_imap.
    destruct (decide (i = c)) as [->|Hne].
    + rewrite list_lookup_insert_eq by done.
      destruct (lookup_lt_is_Some_2 row c Hc) as [x Hx]. rewrite Hx. cbn.
      rewrite (decide_True (P := c ∈ c :: cs)) by apply list_elem_of_here.
      by case_decide.
    + rewrite list_lookup_insert_ne by done.
      destruct (row !! i); [|done]. cbn.
      destruct (decide (i ∈ cs)).
      * by rewrite decide_True by by apply list_elem_of_further.
      * by rewrite decide_False by (rewrite elem_of_cons; tauto).
Qed.

Lemma setitem2_spec (g : nat → nat → F) (rows cols : list nat)
    (m : list (list F)) :
  NoDup rows →
  Forall (λ r, r < length m) rows →
  Forall (λ row, Forall (λ c, c < length row) cols) m →
  setitem2 m rows cols (map (λ r, map (g r) cols) rows)
  = Ok (imap (λ r row,
                if decide (r ∈ rows)
                then imap (λ c v, if decide (c ∈ cols) then g r c else v) row
                else row) m).
Proof.
  unfold setitem2. revert m.
  induction rows as [|r rs IH]; intros m Hnd Hrows Hm.
  - cbn. f_equal. apply list_eq. intros i.
    rewrite list_lookup_imap. destruct (m !! i); [|done]. cbn.
    by rewrite decide_False by apply not_elem_of_nil.
  - apply NoDup_cons in Hnd as [Hr Hnd].
    apply Forall_cons in Hrows as [Hlt Hrs]. cbn.
    rewrite getitem_Ok by done. cbn.
    assert (Hrow : Forall (λ c, c < length (m !!! r)) cols).
    { rewrite Forall_forall in Hm. apply Hm, list_elem_of_lookup.
      exists r. by apply list_lookup_lookup_total_lt. }
    rewrite setitem_row_spec by done. cbn.
    rewrite setitem_Ok by done. cbn.
    rewrite IH; [| done | by rewrite length_insert |].
    + f_equal. apply list_eq. intros i. rewrite !list_lookup_imap.
      destruct (decide (i = r)) as [->|Hne].
      * rewrite list_lookup_insert_eq by done.
        rewrite (list_lookup_lookup_total_lt m r) by done. cbn.
        rewrite decide_False by done.
        by rewrite (decide_True (P := r ∈ r :: rs)) by apply list_elem_of_here.
      * rewrite list_lookup_insert_ne by done.
        destruct (m !! i); [|done]. cbn.
        destruct (decide (i ∈ rs)).
        -- by rewrite decide_True by by apply list_elem_of_further.
        -- by rewrite decide_False by (rewrite elem_of_cons; tauto).
    + apply Forall_insert; [done|].
      by rewrite length_imap.
Qed.

Lemma getitem2_spec (rows cols : list nat) (m : list (list F)) :
  Forall (λ r, r < length m) rows →
  Forall (λ row, Forall (λ c, c < length row) cols) m →
  getitem2 m rows cols
  = Ok (map (λ r, map (λ c, (m !!! r) !!! c) cols) rows).
Proof.
  intros Hrows Hm. unfold getitem2. apply mapM_Ok.
  rewrite Forall_forall in Hrows. rewrite Forall_forall in Hm.
  apply Forall_forall. intros r Hr.
  rewrite getitem_Ok by auto. cbn. apply mapM_Ok.
  assert (Hrow : Forall (λ c, c < length (m !!! r)) cols).
  { apply Hm, list_elem_of_lookup. exists r.
    apply list_lookup_lookup_total_lt. auto. }
  rewrite Forall_forall in Hrow. apply Forall_forall. intros c Hc.
  apply getitem_Ok. auto.
Qed.

(** On a rectangular matrix the sliced assignment never raises and is the
    entrywise overwrite. *)
Lemma assign_sliced_Mat (f : F → F) (start D : nat) (m : list (list F)) :
  rect m D →
  assign_sliced f start (Mat m) = Ok (Mat (overwrite f start m)).
Proof.
  intros Hrect. unfold assign_sliced.
  assert (HD : m ≠ [] → ncols m = D).
  { destruct m as [|row m]; [done|]. intros _. cbn.
    by apply Forall_cons in Hrect as [? _]. }
  assert (Hrows : Forall (λ r, r < length m) (slice_indices 1 1 (length m))).
  { apply Forall_forall. intros r Hr.
    apply elem_of_slice_indices in Hr. lia. }
  assert (Hm : Forall (λ row : list F,
             Forall (λ c, c < length row) (slice_indices start 2 (ncols m))) m).
  { apply Forall_forall. intros row Hrow. apply Forall_forall. intros c Hc.
    apply elem_of_slice_indices in Hc.
    unfold rect in Hrect. rewrite Forall_forall in Hrect.
    rewrite (Hrect row Hrow). rewrite HD in Hc; [lia|].
    intros ->. by apply elem_of_nil in Hrow. }
  rewrite getitem2_spec by done. cbn.
  rewrite map_map.
  erewrite (map_ext _ (λ r, map (λ c, f ((m !!! r) !!! c))
                               (slice_indices start 2 (ncols m)))).
  2:{ intros r. by rewrite map_map. }
  rewrite (setitem2_spec (λ r c, f ((m !!! r) !!! c)))
    by (done || apply NoDup_slice_indices).
  cbn. do 2 f_equal. unfold overwrite.
  apply list_eq. intros r. rewrite !list_lookup_imap.
  destruct (m !! r) as [row|] eqn:Hr; [|done]. cbn. f_equal.
  assert (Hlen : length row = ncols m).
  { unfold rect in Hrect. rewrite Forall_forall in Hrect.
    rewrite (Hrect row) by (apply list_elem_of_lookup; eauto).
    symmetry. apply HD. intros ->. done. }
  apply lookup_lt_Some in Hr as Hrlt.
  destruct (decide (1 ≤ r)) as [H1|H1].
  - rewrite decide_True by (apply elem_of_slice_indices; rewrite Nat.mod_1_r; lia).
    apply list_eq. intros c. rewrite !list_lookup_imap.
    destruct (row !! c) as [v|] eqn:Hc; [|done]. cbn. f_equal.
    apply lookup_lt_Some in Hc as Hclt.
    rewrite (list_lookup_total_correct _ _ _ Hr).
    rewrite (list_lookup_total_correct _ _ _ Hc).
    destruct (decide (start ≤ c ∧ (c - start) `mod` 2 = 0)).
    + rewrite decide_True; [done|]. apply elem_of_slice_indices. lia.
    + rewrite decide_False; [done|]. rewrite elem_of_slice_indices. tauto.
  - rewrite decide_False; [done|]. rewrite elem_of_slice_indices. lia.
Qed.

Lemma rect_overwrite (f : F → F) (start : nat) (m : list (list F)) (D : nat) :
  rect m D → rect (overwrite f start m) D.
Proof.
  unfold rect, overwrite. rewrite !Forall_lookup. intros Hm r row.
  rewrite list_lookup_imap. destruct (m !! r) as [row0|] eqn:Hr; [|done].
  cbn. intros [= <-]. specialize (Hm r row0 Hr).
  case_decide; [by rewrite length_imap | done].
Qed.

Lemma length_raw_row (rate : F) (D pos : nat) :
  length (raw_row rate D pos) = D.
Proof.
  unfold raw_row. case_decide.
  - by rewrite length_map, length_seq.
  - by rewrite length_replicate.
Qed.

Lemma rect_raw_table (rate : F) (N D : nat) : rect (raw_table rate N D) D.
Proof.
  unfold rect, raw_table. apply Forall_forall. intros row Hrow.
  apply list_elem_of_fmap in Hrow as (pos & -> & _). apply length_raw_row.
Qed.

Lemma np_array_raw_table (rate : F) (N D : nat) :
  0 < N → np_array (raw_table rate N D) = Mat (raw_table rate N D).
Proof. intros HN. unfold raw_table. destruct N; [lia|]. done. Qed.

Lemma position_encoding_init_raw (rate : F) (N D : nat) :
  position_encoding_init N D rate false = Ok (np_array (raw_table rate N D)).
Proof. done. Qed.

Lemma position_encoding_init_sin (rate : F) (N D : nat) :
  0 < N →
  position_encoding_init N D rate true
  = Ok (Mat (overwrite fcos 1 (overwrite fsin 0 (raw_table rate N D)))).
Proof.
  intros HN. unfold position_encoding_init.
  fold (raw_table rate N D). rewrite np_array_raw_table by done.
  rewrite (assign_sliced_Mat _ _ D) by apply rect_raw_table. cbn.
  apply (assign_sliced_Mat _ _ D), rect_overwrite, rect_raw_table.
Qed.

End PositionFacts.

Section PositionTheorems.
Context `{Scalar F}.

Lemma scale_one (x : ndarray F) :
  (∀ v : F, fmul (of_Z 1) v = v) → scale (of_Z 1) x = x.
Proof.
  intros H1. destruct x as [v|m]; cbn; f_equal.
  - rewrite <- (map_id v) at 2. by apply map_ext.
  - rewrite <- (map_id m) at 2. apply map_ext. intros row.
    rewrite <- (map_id row) at 2. by apply map_ext.
Qed.

Lemma lookup_overwrite (f : F → F) (start r c : nat) (m : list (list F)) :
  (m !! r ≫= (.!! c)) ≫= (λ v, Some (
     if decide (1 ≤ r ∧ start ≤ c ∧ (c - start) `mod` 2 = 0) then f v else v))
  = overwrite f start m !! r ≫= (.!! c).
Proof.
  unfold overwrite. rewrite list_lookup_imap.
  destruct (m !! r) as [row|]; [|done]. cbn.
  destruct (decide (1 ≤ r)).
  - rewrite list_lookup_imap. destruct (row !! c); [|done]. cbn.
    f_equal. repeat case_decide; tauto || done.
  - destruct (row !! c); [|done]. cbn. by rewrite decide_False by tauto.
Qed.

Lemma lookup_raw_table (rate : F) (N D pos : nat) :
  pos < N → raw_table rate N D !! pos = Some (raw_row rate D pos).
Proof.
  intros Hpos. unfold raw_table. rewrite list_lookup_fmap.
  by rewrite lookup_seq_lt.
Qed.

Lemma lookup_raw_row (rate : F) (D pos i : nat) :
  1 ≤ pos → i < D → raw_row rate D pos !! i = Some (raw_entry rate D pos i).
Proof.
  intros Hpos Hi. unfold raw_row. rewrite decide_True by lia.
  rewrite list_lookup_fmap. by rewrite lookup_seq_lt.
Qed.

(** C3: the table has row 0 all zeros; in a row [pos >= 1] column [i] holds
    [rate * pos / 10000^(2*i/D)], replaced in the sinusoidal table by its
    sine in the even columns and by its cosine in the odd columns. *)
Theorem position_encoding_init_table (N D : nat) (rate : F) (sinusoidal : bool) :
  0 < N →
  ∃ tbl,
    position_encoding_init N D rate sinusoidal = Ok (Mat tbl)
    ∧ length tbl = N
    ∧ tbl !! 0 = Some (replicate D (of_Z 0))
    ∧ ∀ pos i, 1 ≤ pos → pos < N → i < D →
        let q := fdiv (fmul rate (of_nat pos))
                      (fpow (of_Z 10000) (fdiv (of_nat (2 * i)) (of_nat D))) in
        tbl !! pos ≫= (.!! i)
        = Some (if sinusoidal
                then (if Nat.even i then fsin else fcos) q
                else q).
Proof.
  intros HN. cbv zeta. fold (raw_entry rate D).
  assert (Hrow0 : raw_table rate N D !! 0 = Some (replicate D (of_Z 0))).
  { by rewrite lookup_raw_table by done. }
  assert (Hent : ∀ pos i, 1 ≤ pos → pos < N → i < D →
            raw_table rate N D !! pos ≫= (.!! i) = Some (raw_entry rate D pos i)).
  { intros pos i H1 H2 H3. rewrite lookup_raw_table by done. cbn.
    by apply lookup_raw_row. }
  destruct sinusoidal.
  - eexists. split; [by apply position_encoding_init_sin|].
    split; [|split].
    + unfold overwrite, raw_table.
      by rewrite !length_imap, length_map, length_seq.
    + unfold overwrite. rewrite !list_lookup_imap, Hrow0. cbn.
      by rewrite !decide_False by lia.
    + intros pos i H1 H2 H3.
      rewrite <- !lookup_overwrite, Hent by done. cbn.
      rewrite Nat.sub_0_r.
      destruct (Nat.even i) eqn:Hev.
      * apply Nat.even_spec in Hev as [k ->].
        rewrite (decide_True (P := _ ∧ _ ∧ (2 * k) `mod` 2 = 0)).
        2:{ split_and!; [lia..|]. by rewrite Nat.mul_comm, Nat.Div0.mod_mul. }
        rewrite decide_False; [done|].
        intros (_ & ? & Hm). replace (2 * k - 1) with (1 + (k - 1) * 2) in Hm by lia.
        rewrite Nat.Div0.mod_add in Hm. done.
      * assert (Hodd : Nat.odd i = true) by (by rewrite <- Nat.negb_even, Hev).
        apply Nat.odd_spec in Hodd as [k ->].
        rewrite (decide_False (P := _ ∧ _ ∧ (2 * k + 1) `mod` 2 = 0)).
        2:{ intros (_ & _ & Hm). rewrite Nat.add_comm, Nat.mul_comm in Hm.
            rewrite Nat.Div0.mod_add in Hm. done. }
        rewrite decide_True; [done|]. split_and!; [lia..|].
        replace (2 * k + 1 - 1) with (k * 2) by lia. apply Nat.Div0.mod_mul.
  - exists (raw_table rate N D). split; [|split; [|split]].
    + rewrite position_encoding_init_raw. by rewrite np_array_raw_table.
    + unfold raw_table. by rewrite length_map, length_seq.
    + done.
    + intros pos i H1 H2 H3. by apply Hent.
Qed.

(** C2: re-encoding the stored base table with [w = 1.0] gives the
    sinusoidal table of the builder, provided multiplying by 1.0 returns
    its argument. *)
Theorem sinusoidal_encode_base_table (N D : nat) :
  (∀ v : F, fmul (of_Z 1) v = v) →
  (SinusoidalEncoding_weight N D ≫= λ base, sinusoidal_encode base (of_Z 1))
  = position_encoding_init N D (of_Z 1) true
  ∧ (0 < N → ∃ tbl, position_encoding_init N D (of_Z 1) true = Ok (Mat tbl)).
Proof.
  intros H1. split.
  - unfold SinusoidalEncoding_weight. rewrite position_encoding_init_raw.
    cbn [mbind result_bind]. unfold sinusoidal_encode.
    by rewrite scale_one.
  - intros HN. eexists. by apply position_encoding_init_sin.
Qed.

(** C9: for every width [D], odd or even, the builder and the re-encoding
    return without an index error, and every column index they use (the
    raw formula's and the two strided slices') is below [D]. *)
Theorem sinusoidal_indices_in_range (N D : nat) (rate w : F)
    (sinusoidal : bool) (x : list (list F)) :
  0 < N → rect x D →
  (∃ tbl, position_encoding_init N D rate sinusoidal = Ok (Mat tbl))
  ∧ (∃ y, sinusoidal_encode (Mat x) w = Ok (Mat y))
  ∧ Forall (λ i, i < D) (seq 0 D)
  ∧ Forall (λ c, c < D) (slice_indices 0 2 D)
  ∧ Forall (λ c, c < D) (slice_indices 1 2 D).
Proof.
  intros HN Hx. split_and!.
  - destruct sinusoidal.
    + eexists. by apply position_encoding_init_sin.
    + eexists. rewrite position_encoding_init_raw.
      by rewrite np_array_raw_table.
  - unfold sinusoidal_encode. cbn [scale].
    assert (Hs : rect (map (map (fmul w)) x) D).
    { unfold rect in *. rewrite Forall_fmap. eapply Forall_impl; [done|].
      intros row Hrow. cbn. by rewrite length_map. }
    rewrite (assign_sliced_Mat _ _ D) by done. cbn [mbind result_bind].
    rewrite (assign_sliced_Mat _ _ D) by by apply rect_overwrite.
    eauto.
  - apply Forall_forall. intros i Hi. apply elem_of_seq in Hi. lia.
  - apply Forall_forall. intros c Hc. apply elem_of_slice_indices in Hc. lia.
  - apply Forall_forall. intros c Hc. apply elem_of_slice_indices in Hc. lia.
Qed.

End PositionTheorems.

(** ** The length-to-mask helper *)

Section MaskFacts.

Lemma fill_loop (ls : list nat) (s : nat) (mask : list (list Z)) :
  s + length ls ≤ length mask →
  foldM (λ mask il,
           row ← getitem mask il.1;
           setitem mask il.1 (fill_prefix il.2 row))
        mask (zip (seq s (length ls)) ls)
  = Ok (imap (filled s ls) mask).
Proof.
  revert s mask. induction ls as [|l ls IH]; intros s mask Hlen.
  - cbn. f_equal. apply list_eq. intros b. rewrite list_lookup_imap.
    destruct (mask !! b); [|done]. cbn. unfold filled.
    by case_decide.
  - cbn in Hlen. cbn [length seq zip_with foldM].
    cbn [fst snd]. rewrite getitem_Ok, bind_Ok by lia.
    rewrite setitem_Ok, bind_Ok by lia.
    rewrite IH by (rewrite length_insert; lia).
    f_equal. apply list_eq. intros b. rewrite !list_lookup_imap.
    destruct (decide (b = s)) as [->|Hne].
    + rewrite list_lookup_insert_eq by lia.
      rewrite (list_lookup_lookup_total_lt mask s) by lia. cbn.
      unfold filled. rewrite decide_False by lia. rewrite decide_True by lia.
      by rewrite Nat.sub_diag.
    + rewrite list_lookup_insert_ne by done.
      destruct (mask !! b); [|done]. cbn. f_equal. unfold filled.
      destruct (decide (s ≤ b)).
      * rewrite decide_True by lia.
        replace (b - s) with (S (b - S s)) by lia. done.
      * by rewrite decide_False by lia.
Qed.

Lemma lookup_fill_prefix_zeros (l T t : nat) :
  t < T →
  fill_prefix l (replicate T 0%Z) !! t = Some (if decide (t < l) then 1%Z else 0%Z).
Proof.
  intros Ht. unfold fill_prefix. rewrite length_replicate, drop_replicate.
  destruct (decide (t < l)).
  - rewrite lookup_app_l by (rewrite length_replicate; lia).
    apply lookup_replicate_2. lia.
  - rewrite lookup_app_r by (rewrite length_replicate; lia).
    rewrite length_replicate. apply lookup_replicate_2. lia.
Qed.

Lemma length_fill_prefix (l : nat) (row : list Z) :
  length (fill_prefix l row) = length row.
Proof.
  unfold fill_prefix. rewrite length_app, length_replicate, length_drop. lia.
Qed.

(** C7: for a memory of shape (batch, max_time, dim) and one length per
    example, the mask has shape (batch, max_time), and is false exactly at
    the time indices below the example's length; lengths [2,3] with
    max_time 3 give [[False,False,True],[False,False,False]]. *)
Theorem get_mask_from_lengths_spec {A} (memory : list (list (list A)))
    (memory_lengths : list nat) (batch max_time : nat) :
  length memory = batch →
  Forall (λ ex, length ex = max_time) memory →
  length memory_lengths = batch →
  ∃ mask,
    get_mask_from_lengths memory memory_lengths = Ok mask
    ∧ length mask = batch
    ∧ Forall (λ row, length row = max_time) mask
    ∧ (∀ b t l, memory_lengths !! b = Some l → t < max_time →
         mask_bools mask !! b ≫= (.!! t) = Some (bool_decide (l ≤ t)))
    ∧ (memory_lengths = [2; 3] → max_time = 3 →
         mask_bools mask = [[false; false; true]; [false; false; false]]).
Proof.
  intros HB HT HL. unfold get_mask_from_lengths, enumerate.
  rewrite fill_loop by (rewrite length_replicate; lia).
  cbn [mbind result_bind]. eexists. split; [done|].
  assert (Hsize : 0 < batch → size1 memory = max_time).
  { destruct memory as [|ex memory]; cbn in *; [lia|].
    intros _. by apply Forall_cons in HT as [? _]. }
  assert (Hrow : ∀ b l, memory_lengths !! b = Some l →
            imap (filled 0 memory_lengths)
                 (replicate (length memory) (replicate (size1 memory) 0%Z)) !! b
            = Some (fill_prefix l (replicate max_time 0%Z))).
  { intros b l Hl. apply lookup_lt_Some in Hl as Hb.
    rewrite list_lookup_imap, lookup_replicate_2 by lia. cbn.
    unfold filled. rewrite decide_True by lia.
    rewrite Nat.sub_0_r, Hl. cbn. by rewrite Hsize by lia. }
  assert (Hent : ∀ b t l, memory_lengths !! b = Some l → t < max_time →
            mask_bools (map (map byte_invert)
              (imap (filled 0 memory_lengths)
                 (replicate (length memory) (replicate (size1 memory) 0%Z))))
              !! b ≫= (.!! t) = Some (bool_decide (l ≤ t))).
  { intros b t l Hl Ht. unfold mask_bools.
    rewrite !list_lookup_fmap, (Hrow b l Hl). cbn.
    rewrite !list_lookup_fmap, lookup_fill_prefix_zeros by done. cbn.
    f_equal. destruct (decide (t < l)).
    - by rewrite bool_decide_false by lia.
    - by rewrite bool_decide_true by lia. }
  split_and!.
  - by rewrite length_map, length_imap, length_replicate.
  - rewrite Forall_fmap. apply Forall_lookup. intros b row.
    rewrite list_lookup_imap.
    destruct (replicate (length memory) (replicate (size1 memory) 0%Z) !! b)
      as [row0|] eqn:Hb; [|done].
    apply lookup_replicate in Hb as [-> Hb]. cbn. intros [= <-].
    rewrite length_map. unfold filled.
    case_decide; [|rewrite length_replicate; apply Hsize; lia].
    destruct (memory_lengths !! (b - 0)); cbn;
      rewrite ?length_fill_prefix, length_replicate; apply Hsize; lia.
  - done.
  - intros -> ->. cbn in HL. subst batch.
    set (m := mask_bools _) in *.
    assert (Hlen : length m = 2).
    { unfold m, mask_bools.
      by rewrite !length_map, length_imap, length_replicate. }
    assert (Hrows : ∀ b l, [2; 3] !! b = Some l →
              m !! b = Some (map (λ t, bool_decide (l ≤ t)) (seq 0 3))).
    { intros b l Hl. unfold m, mask_bools.
      rewrite !list_lookup_fmap, (Hrow b l Hl). cbn [fmap option_fmap option_map].
      f_equal. rewrite Hsize in Hrow by lia.
      destruct b as [|[|b]]; simplify_eq/=; done. }
    destruct m as [|r0 [|r1 [|]]]; try done.
    pose proof (Hrows 0 2 eq_refl) as H0. pose proof (Hrows 1 3 eq_refl) as H1.
    cbn in H0, H1. by simplify_eq.
Qed.

End MaskFacts.

(** ** The factories *)

Section FactoryTheorems.
Context `{Scalar F}.
Variable normal_ : F → F → tensor3 F.

Ltac run_ctor :=
  unfold HighwayConv1d_init, Conv1d, LinearizedConv1d, ConvTBC, construct,
    py_assert, built, lift, raise;
  unfold mbind, mret, ctor_bind, ctor_ret; cbn -[bool_decide init_std].

(** C8: with a first dilation component other than 1 both factories raise
    the assertion error and leave the construction log as it was (nothing
    has been built); with 1 they do not raise it. *)
Theorem dilation_assertion (in_channels out_channels kernel_size d : Z)
    (rest : list Z) (std_mul : option F) (dropout : F) (kw : kwargs)
    (log : list prim) :
  (d ≠ 1%Z →
     LinearizedConv1d normal_ in_channels out_channels kernel_size (d :: rest)
                      std_mul dropout kw log
     = (log, Raise AssertionError)
     ∧ ConvTBC normal_ in_channels out_channels kernel_size (d :: rest)
               std_mul dropout kw log
       = (log, Raise AssertionError))
  ∧ (d = 1%Z →
     (LinearizedConv1d normal_ in_channels out_channels kernel_size (d :: rest)
                       std_mul dropout kw log).2
     ≠ Raise AssertionError
     ∧ (ConvTBC normal_ in_channels out_channels kernel_size (d :: rest)
                std_mul dropout kw log).2
       ≠ Raise AssertionError).
Proof.
  split.
  - intros Hd. run_ctor. by rewrite bool_decide_false by done.
  - intros ->. run_ctor. unfold init_std. cbn. by case_decide.
Qed.

(** C10: a block built without [std_mul] draws the weight of its
    convolution with the multiplier 4.0 under GLU gating and 1.0 under
    highway gating, whereas the convolution factory called without
    [std_mul] uses 4.0. *)
Theorem highway_std_mul (in_channels out_channels kernel_size : Z)
    (padding : option Z) (dilation : Z) (causal : bool) (dropout : F)
    (glu : bool) (kw : kwargs) (log : list prim) :
  (kernel_size * in_channels ≠ 0)%Z →
  (∃ blk,
     HighwayConv1d_init normal_ in_channels out_channels kernel_size padding
                        dilation causal dropout None glu log
     = (log ++ [Conv1d_cls], Ok blk)
     ∧ l_weight (conv blk)
       = normal_ (of_Z 0)
           (fsqrt (fdiv (fmul (if glu then of_Z 4 else of_Z 1)
                              (fsub (of_Z 1) dropout))
                        (of_Z (kernel_size * in_channels)))))
  ∧ (∃ m,
       Conv1d normal_ in_channels (2 * out_channels) kernel_size dropout None
              kw log
       = (log ++ [Conv1d_cls], Ok m)
       ∧ l_weight m
         = normal_ (of_Z 0)
             (fsqrt (fdiv (fmul (of_Z 4) (fsub (of_Z 1) dropout))
                          (of_Z (kernel_size * in_channels))))).
Proof.
  intros Hden. split.
  - run_ctor. unfold init_std. cbn.
    rewrite decide_False by done. eexists. split; [done|].
    cbn. by destruct glu.
  - run_ctor. unfold init_std. cbn.
    rewrite decide_False by done. eexists. split; [done|]. done.
Qed.

End FactoryTheorems.

(** ** Tabulated lists and tensors *)

Section TabFacts.
Context {A : Type}.

Lemma length_tab (n : nat) (f : nat → A) : length (tab n f) = n.
Proof. unfold tab. by rewrite length_map, length_seq. Qed.

Lemma lookup_tab (n : nat) (f : nat → A) (i : nat) :
  i < n → tab n f !! i = Some (f i).
Proof. intros Hi. unfold tab. by rewrite list_lookup_fmap, lookup_seq_lt. Qed.

Lemma lookup_tab_ge (n : nat) (f : nat → A) (i : nat) :
  n ≤ i → tab n f !! i = None.
Proof. intros Hi. apply lookup_ge_None. by rewrite length_tab. Qed.

Lemma lookup_total_tab `{!Inhabited A} (n : nat) (f : nat → A) (i : nat) :
  i < n → tab n f !!! i = f i.
Proof. intros Hi. apply list_lookup_total_correct. by apply lookup_tab. Qed.

Lemma tab_ext (n : nat) (f g : nat → A) :
  (∀ i, i < n → f i = g i) → tab n f = tab n g.
Proof.
  intros Hfg. apply list_eq. intros i. destruct (decide (i < n)).
  - rewrite !lookup_tab by done. f_equal. auto.
  - by rewrite !lookup_tab_ge by lia.
Qed.

Lemma tab_eta `{!Inhabited A} (l : list A) :
  l = tab (length l) (λ i, l !!! i).
Proof.
  apply list_eq. intros i. destruct (decide (i < length l)).
  - rewrite lookup_tab by done. by apply list_lookup_lookup_total_lt.
  - rewrite lookup_tab_ge by lia. apply lookup_ge_None. lia.
Qed.

Lemma take_drop_tab (n lo hi : nat) (f : nat → A) :
  hi ≤ n →
  take (hi - lo) (drop lo (tab n f)) = tab (hi - lo) (λ i, f (lo + i)).
Proof.
  intros Hhi. apply list_eq. intros i. destruct (decide (i < hi - lo)).
  - rewrite lookup_take_lt, lookup_drop, !lookup_tab by lia. done.
  - rewrite lookup_tab_ge by lia. apply lookup_ge_None.
    rewrite length_take. lia.
Qed.

End TabFacts.

Lemma map_tab {A B} (h : A → B) (n : nat) (f : nat → A) :
  map h (tab n f) = tab n (λ i, h (f i)).
Proof. unfold tab. by rewrite map_map. Qed.

Lemma map_eta_tab {A B} `{!Inhabited A} (h : A → B) (l : list A) :
  map h l = tab (length l) (λ i, h (l !!! i)).
Proof. rewrite (tab_eta l) at 1. apply map_tab. Qed.

Lemma mapM_map_Ok {A B I} (g : A → result B) (h : I → B) (f : I → A)
    (l : list I) :
  (∀ i, i ∈ l → g (f i) = Ok (h i)) → mapM g (map f l) = Ok (map h l).
Proof.
  induction l as [|i l IH]; intros Hg; [done|].
  cbn. rewrite Hg by apply list_elem_of_here. cbn.
  rewrite IH; [done|]. intros j Hj. apply Hg. by apply list_elem_of_further.
Qed.

Lemma mapM_tab_Ok {A B} (g : A → result B) (h : nat → B) (n : nat)
    (f : nat → A) :
  (∀ i, i < n → g (f i) = Ok (h i)) → mapM g (tab n f) = Ok (tab n h).
Proof.
  intros Hg. unfold tab. apply mapM_map_Ok. intros i Hi.
  apply elem_of_seq in Hi. apply Hg. lia.
Qed.

Lemma broadcast2_tab {A B C} (g : A → B → result C) (n : nat)
    (f1 : nat → A) (f2 : nat → B) (h : nat → C) :
  (∀ i, i < n → g (f1 i) (f2 i) = Ok (h i)) →
  broadcast2 g (tab n f1) (tab n f2) = Ok (tab n h).
Proof.
  intros Hg. unfold broadcast2. rewrite decide_True by by rewrite !length_tab.
  replace (zip (tab n f1) (tab n f2)) with (tab n (λ i, (f1 i, f2 i))).
  - by apply mapM_tab_Ok.
  - apply list_eq. intros i. rewrite lookup_zip_with.
    destruct (decide (i < n)).
    + by rewrite !lookup_tab by done.
    + by rewrite !lookup_tab_ge by lia.
Qed.

Lemma div2_double (n : nat) : (2 * n) `div` 2 = n.
Proof. rewrite Nat.mul_comm. apply Nat.div_mul. lia. Qed.

Lemma mod2_double (n : nat) : (2 * n) `mod` 2 = 0.
Proof. rewrite Nat.mul_comm. apply Nat.Div0.mod_mul. Qed.

Section TensorFacts.
Context `{Scalar F}.

Lemma shape3_tab3 (B C T : nat) (f : nat → nat → nat → F) :
  shape3 (tab3 B C T f) B C T.
Proof.
  unfold shape3, tab3. split; [apply length_tab|].
  apply Forall_forall. intros ex Hex.
  apply list_elem_of_fmap in Hex as (b & -> & _). split; [apply length_tab|].
  apply Forall_forall. intros ch Hch.
  apply list_elem_of_fmap in Hch as (c & -> & _). apply length_tab.
Qed.

Lemma tab3_ext (B C T : nat) (f g : nat → nat → nat → F) :
  (∀ b c t, b < B → c < C → t < T → f b c t = g b c t) →
  tab3 B C T f = tab3 B C T g.
Proof.
  intros Hfg. unfold tab3. apply tab_ext. intros b Hb.
  apply tab_ext. intros c Hc. apply tab_ext. intros t Ht. auto.
Qed.

Lemma shape3_lookup (x : tensor3 F) (B C T b : nat) :
  shape3 x B C T → b < B →
  length (x !!! b) = C ∧ ∀ c, c < C → length ((x !!! b) !!! c) = T.
Proof.
  intros [HB Hx] Hb. rewrite Forall_lookup in Hx.
  destruct (Hx b (x !!! b)) as [HC Hex].
  { apply list_lookup_lookup_total_lt. lia. }
  split; [done|]. intros c Hc. rewrite Forall_lookup in Hex.
  apply (Hex c). apply list_lookup_lookup_total_lt. lia.
Qed.

Lemma tab3_eta (x : tensor3 F) (B C T : nat) :
  shape3 x B C T → x = tab3 B C T (at3 x).
Proof.
  intros Hx. unfold tab3, at3. rewrite (tab_eta x) at 1.
  rewrite (proj1 Hx). apply tab_ext. intros b Hb.
  destruct (shape3_lookup x B C T b) as [HC HT]; [done..|].
  rewrite (tab_eta (x !!! b)) at 1. rewrite HC. apply tab_ext. intros c Hc.
  rewrite (tab_eta ((x !!! b) !!! c)) at 1. by rewrite HT.
Qed.

Lemma at3_tab3 (B C T b c t : nat) (f : nat → nat → nat → F) :
  b < B → c < C → t < T → at3 (tab3 B C T f) b c t = f b c t.
Proof.
  intros Hb Hc Ht. unfold at3, tab3. by rewrite !lookup_total_tab.
Qed.

Lemma tsize_Dim1_tab3 (B C T : nat) (f : nat → nat → nat → F) :
  0 < B → tsize Dim1 (tab3 B C T f) = C.
Proof.
  intros HB. destruct B; [lia|]. cbn. apply length_tab.
Qed.

Lemma tsize_DimLast_tab3 (B C T : nat) (f : nat → nat → nat → F) :
  0 < B → 0 < C → tsize DimLast (tab3 B C T f) = T.
Proof.
  intros HB HC. destruct B; [lia|]. destruct C; [lia|]. cbn. apply length_tab.
Qed.

Lemma tmap_tab3 (h : F → F) (B C T : nat) (f : nat → nat → nat → F) :
  tmap h (tab3 B C T f) = tab3 B C T (λ b c t, h (f b c t)).
Proof.
  unfold tmap, tab3. rewrite map_tab. apply tab_ext. intros b _.
  rewrite map_tab. apply tab_ext. intros c _. by rewrite map_tab.
Qed.

Lemma tslice_Dim1_tab3 (lo hi B C T : nat) (f : nat → nat → nat → F) :
  hi ≤ C →
  tslice Dim1 lo hi (tab3 B C T f) = tab3 B (hi - lo) T (λ b c t, f b (lo + c) t).
Proof.
  intros Hhi. unfold tslice, tab3. rewrite map_tab. apply tab_ext. intros b _.
  by rewrite take_drop_tab.
Qed.

Lemma tslice_DimLast_tab3 (lo hi B C T : nat) (f : nat → nat → nat → F) :
  hi ≤ T →
  tslice DimLast lo hi (tab3 B C T f)
  = tab3 B C (hi - lo) (λ b c t, f b c (lo + t)).
Proof.
  intros Hhi. unfold tslice, tab3. rewrite map_tab. apply tab_ext. intros b _.
  rewrite map_tab. apply tab_ext. intros c _. by rewrite take_drop_tab.
Qed.

Lemma tzip_tab3 (op : F → F → F) (B C T : nat) (f g : nat → nat → nat → F) :
  tzip op (tab3 B C T f) (tab3 B C T g)
  = Ok (tab3 B C T (λ b c t, op (f b c t) (g b c t))).
Proof.
  unfold tzip, tab3. apply broadcast2_tab. intros b _.
  apply broadcast2_tab. intros c _. apply broadcast2_tab. done.
Qed.

(** Splitting an axis of even size in halves gives exactly two chunks. *)
Lemma tsplit_Dim1_tab3 (B C T : nat) (f : nat → nat → nat → F) :
  0 < B → 0 < C →
  tsplit (tsize Dim1 (tab3 B (2 * C) T f) `div` 2) Dim1 (tab3 B (2 * C) T f)
    ≫= unpack2
  = Ok (tab3 B C T f, tab3 B C T (λ b c t, f b (C + c) t)).
Proof.
  intros HB HC. rewrite tsize_Dim1_tab3 by done.
  rewrite div2_double.
  unfold tsplit. rewrite decide_False by lia.
  rewrite tsize_Dim1_tab3 by done.
  replace ((2 * C + C - 1) `div` C) with 2.
  2:{ apply (Nat.div_unique _ _ _ (C - 1)); lia. }
  cbn [seq map]. rewrite bind_Ok. cbn [unpack2].
  rewrite !tslice_Dim1_tab3 by lia. do 2 f_equal.
  - replace ((0 + 1) * C - 0 * C) with C by lia.
    apply tab3_ext. intros. f_equal.
  - replace ((1 + 1) * C - 1 * C) with C by lia.
    apply tab3_ext. intros. f_equal. lia.
Qed.

Lemma tsplit_DimLast_tab3 (B C T : nat) (f : nat → nat → nat → F) :
  0 < B → 0 < C → 0 < T →
  tsplit (tsize DimLast (tab3 B C (2 * T) f) `div` 2) DimLast
         (tab3 B C (2 * T) f)
    ≫= unpack2
  = Ok (tab3 B C T f, tab3 B C T (λ b c t, f b c (T + t))).
Proof.
  intros HB HC HT. rewrite tsize_DimLast_tab3 by done.
  rewrite div2_double.
  unfold tsplit. rewrite decide_False by lia.
  rewrite tsize_DimLast_tab3 by done.
  replace ((2 * T + T - 1) `div` T) with 2.
  2:{ apply (Nat.div_unique _ _ _ (T - 1)); lia. }
  cbn [seq map]. rewrite bind_Ok. cbn [unpack2].
  rewrite !tslice_DimLast_tab3 by lia. do 2 f_equal.
  - replace ((0 + 1) * T - 0 * T) with T by lia.
    apply tab3_ext. intros. f_equal.
  - replace ((1 + 1) * T - 1 * T) with T by lia.
    apply tab3_ext. intros. f_equal. lia.
Qed.

Lemma F_glu_Dim1_tab3 (B C T : nat) (f : nat → nat → nat → F) :
  0 < B →
  F_glu (tab3 B (2 * C) T f) Dim1
  = Ok (tab3 B C T (λ b c t, fmul (f b c t) (fsigmoid (f b (C + c) t)))).
Proof.
  intros HB. unfold F_glu. rewrite tsize_Dim1_tab3 by done.
  rewrite decide_True by apply mod2_double.
  rewrite div2_double.
  rewrite !tslice_Dim1_tab3 by lia. rewrite tmap_tab3.
  replace (2 * C - C) with C by lia. rewrite Nat.sub_0_r.
  by rewrite tzip_tab3.
Qed.

Lemma F_glu_DimLast_tab3 (B C T : nat) (f : nat → nat → nat → F) :
  0 < B → 0 < C →
  F_glu (tab3 B C (2 * T) f) DimLast
  = Ok (tab3 B C T (λ b c t, fmul (f b c t) (fsigmoid (f b c (T + t))))).
Proof.
  intros HB HC. unfold F_glu. rewrite tsize_DimLast_tab3 by done.
  rewrite decide_True by apply mod2_double.
  rewrite div2_double.
  rewrite !tslice_DimLast_tab3 by lia. rewrite tmap_tab3.
  replace (2 * T - T) with T by lia. rewrite Nat.sub_0_r.
  by rewrite tzip_tab3.
Qed.

End TensorFacts.

(** ** The batch forward pass *)

Section ForwardFacts.
Context `{Scalar F}.

Lemma tsize_Dim1_shape3 (x : tensor3 F) (B C T : nat) :
  shape3 x B C T → 0 < B → tsize Dim1 x = C.
Proof.
  intros Hx HB. rewrite (tab3_eta x B C T Hx). by apply tsize_Dim1_tab3.
Qed.

Lemma tsize_DimLast_shape3 (x : tensor3 F) (B C T : nat) :
  shape3 x B C T → 0 < B → 0 < C → tsize DimLast x = T.
Proof.
  intros Hx HB HC. rewrite (tab3_eta x B C T Hx). by apply tsize_DimLast_tab3.
Qed.

(** The convolution of a well-shaped input, entry by entry. *)
Lemma conv_forward_tab (m : layer F) (x : tensor3 F) (B C T : nat) :
  shape3 x B C T → 0 < B → 0 < C →
  (1 ≤ l_kernel_size m)%Z → (1 ≤ l_dilation m)%Z → (0 ≤ l_padding m)%Z →
  Z.to_nat (l_in_channels m) = C →
  Z.to_nat (l_dilation m) * (Z.to_nat (l_kernel_size m) - 1) + 1
    ≤ T + 2 * Z.to_nat (l_padding m) →
  conv_forward m x
  = Ok (tab3 B (Z.to_nat (l_out_channels m))
             (T + 2 * Z.to_nat (l_padding m)
              - Z.to_nat (l_dilation m) * (Z.to_nat (l_kernel_size m) - 1))
             (λ b o t, conv_entry m (x !!! b) o t)).
Proof.
  intros Hx HB HC Hk Hd Hp Hin HL. unfold conv_forward.
  rewrite decide_True by done.
  rewrite (tsize_Dim1_shape3 x B C T), (tsize_DimLast_shape3 x B C T) by done.
  rewrite decide_True by done. f_equal.
  rewrite map_eta_tab, (proj1 Hx). done.
Qed.

(** The batch output, entry by entry, from the trimmed convolution output. *)
Lemma forward_entries (drop : F → tensor3 F → tensor3 F)
    (blk : HighwayConv1d F) (x y0 : tensor3 F) (B C T : nat) :
  0 < B → 0 < C →
  shape3 x B C T →
  conv_forward (conv blk) (F_dropout drop x (dropout blk) (training blk))
    = Ok y0 →
  let y := if causal blk then tslice DimLast 0 (tsize DimLast x) y0 else y0 in
  shape3 y B (2 * C) T →
  forward drop blk x
  = Ok (blk, tab3 B C T (λ b c t,
               gate (glu blk) (at3 y b c t) (at3 y b (C + c) t) (at3 x b c t))).
Proof.
  intros HB HC Hx Hconv y Hy. unfold forward, _forward.
  rewrite Hconv, bind_Ok. fold y. cbn beta iota. rewrite bind_Ok.
  rewrite (tab3_eta y B (2 * C) T Hy). rewrite (tab3_eta x B C T Hx).
  destruct (glu blk).
  - rewrite F_glu_Dim1_tab3, bind_Ok by done.
    rewrite tzip_tab3, bind_Ok. rewrite tmap_tab3.
    do 2 f_equal. apply tab3_ext. intros b c t Hb Hc Ht.
    rewrite !at3_tab3 by lia. done.
  - rewrite tsplit_Dim1_tab3, bind_Ok by done. cbn beta iota.
    rewrite !tmap_tab3.
    rewrite !tzip_tab3, !bind_Ok. rewrite tzip_tab3, bind_Ok.
    do 2 f_equal. apply tab3_ext. intros b c t Hb Hc Ht.
    rewrite !at3_tab3 by lia. done.
Qed.

(** The convolution output of a causal block with the default padding,
    trimmed to the input length. *)
Lemma causal_conv_trimmed (m : layer F) (x : tensor3 F) (B C T : nat) :
  (1 ≤ l_kernel_size m)%Z → (1 ≤ l_dilation m)%Z →
  l_padding m = default_padding true (l_kernel_size m) (l_dilation m) →
  l_in_channels m = Z.of_nat C → l_out_channels m = (2 * Z.of_nat C)%Z →
  0 < B → 0 < C → 0 < T → shape3 x B C T →
  ∃ y0, conv_forward m x = Ok y0
        ∧ tslice DimLast 0 T y0
          = tab3 B (2 * C) T (λ b o t, conv_entry m (x !!! b) o t).
Proof.
  intros Hk Hd Hp Hin Hout HB HC HT Hx. unfold default_padding in Hp.
  assert (HP : Z.to_nat (l_padding m)
               = Z.to_nat (l_dilation m) * (Z.to_nat (l_kernel_size m) - 1)) by nia.
  eexists. split.
  - apply (conv_forward_tab m x B C T); try done; nia.
  - rewrite tslice_DimLast_tab3 by nia.
    replace (Z.to_nat (l_out_channels m)) with (2 * C) by lia.
    rewrite Nat.sub_0_r. done.
Qed.

(** C4: in highway mode the batch output is, entry by entry,
    [sigmoid(b) * a + (1 - sigmoid(b)) * x] for the halves [a], [b] of the
    trimmed convolution output along the channel axis, with no further
    scaling. *)
Theorem highway_forward_formula (drop : F → tensor3 F → tensor3 F)
    (blk : HighwayConv1d F) (x y0 : tensor3 F) (B C T : nat) :
  glu blk = false → 0 < B → 0 < C →
  shape3 x B C T →
  conv_forward (conv blk) (F_dropout drop x (dropout blk) (training blk))
    = Ok y0 →
  let y := if causal blk then tslice DimLast 0 (tsize DimLast x) y0 else y0 in
  shape3 y B (2 * C) T →
  forward drop blk x
  = Ok (blk, tab3 B C T (λ b c t,
               let a := at3 y b c t in
               let g := fsigmoid (at3 y b (C + c) t) in
               fadd (fmul g a) (fmul (fsub (of_Z 1) g) (at3 x b c t)))).
Proof.
  intros Hglu HB HC Hx Hconv y Hy.
  rewrite (forward_entries drop blk x y0 B C T) by done.
  by rewrite Hglu.
Qed.

(** C5: in GLU mode the batch output is, entry by entry,
    [(glu(conv output) + x) * sqrt(0.5)], the gating taken along the
    channel axis. *)
Theorem glu_forward_formula (drop : F → tensor3 F → tensor3 F)
    (blk : HighwayConv1d F) (x y0 : tensor3 F) (B C T : nat) :
  glu blk = true → 0 < B → 0 < C →
  shape3 x B C T →
  conv_forward (conv blk) (F_dropout drop x (dropout blk) (training blk))
    = Ok y0 →
  let y := if causal blk then tslice DimLast 0 (tsize DimLast x) y0 else y0 in
  shape3 y B (2 * C) T →
  forward drop blk x
  = Ok (blk, tab3 B C T (λ b c t,
               let gated := fmul (at3 y b c t)
                                 (fsigmoid (at3 y b (C + c) t)) in
               fmul (fadd gated (at3 x b c t)) (fsqrt fhalf))).
Proof.
  intros Hglu HB HC Hx Hconv y Hy.
  rewrite (forward_entries drop blk x y0 B C T) by done.
  by rewrite Hglu.
Qed.

Lemma mapM_Forall {A B} (g : A → result B) (R : B → Prop) (l : list A)
    (zs : list B) :
  Forall (λ a, ∀ z, g a = Ok z → R z) l → mapM g l = Ok zs → Forall R zs.
Proof.
  intros Hl. revert zs. induction Hl as [|a l Ha _ IH]; intros zs.
  - cbn. intros [= <-]. constructor.
  - cbn. destruct (g a) as [z|] eqn:Hz; [|done]. cbn.
    destruct (mapM g l) as [zs'|]; [|done]. cbn. intros [= <-].
    constructor; auto.
Qed.

Lemma mapM_length {A B} (g : A → result B) (l : list A) (zs : list B) :
  mapM g l = Ok zs → length zs = length l.
Proof.
  revert zs. induction l as [|a l IH]; intros zs.
  - cbn. by intros [= <-].
  - cbn. destruct (g a) as [z|]; [|done]. cbn.
    destruct (mapM g l) as [zs'|]; [|done]. cbn. intros [= <-].
    cbn. f_equal. by apply IH.
Qed.

(** What holds of all the operands holds of a broadcast result. *)
Lemma broadcast2_Forall {A B C} (f : A → B → result C) (P : A → Prop)
    (Q : B → Prop) (R : C → Prop) (xs : list A) (ys : list B) (zs : list C) :
  (∀ x y z, P x → Q y → f x y = Ok z → R z) →
  Forall P xs → Forall Q ys → broadcast2 f xs ys = Ok zs → Forall R zs.
Proof.
  intros Hf Hxs Hys. unfold broadcast2. case_decide.
  - apply mapM_Forall. apply Forall_forall. intros [x y] Hxy z.
    apply elem_of_zip_l in Hxy as Hx. apply elem_of_zip_r in Hxy as Hy.
    cbn in *. rewrite Forall_forall in Hxs. rewrite Forall_forall in Hys.
    eauto.
  - destruct xs as [|x [|x' xs]].
    + destruct ys as [|y [|y' ys]]; try done.
      cbn. intros [= <-]. constructor.
    + apply mapM_Forall. apply Forall_cons in Hxs as [Hx _].
      eapply Forall_impl; [exact Hys|]. cbn. eauto.
    + destruct ys as [|y [|y' ys]]; try done.
      apply mapM_Forall. apply Forall_cons in Hys as [Hy _].
      eapply Forall_impl; [exact Hxs|]. cbn. eauto.
Qed.

Lemma tzip_time_len (op : F → F → F) (x y z : tensor3 F) (T : nat) :
  time_len x T → time_len y T → tzip op x y = Ok z → time_len z T.
Proof.
  unfold time_len, tzip. apply broadcast2_Forall. intros ex ey ez.
  apply broadcast2_Forall. intros cx cy cz Hcx Hcy. unfold broadcast2.
  rewrite decide_True by lia. intros Hz. apply mapM_length in Hz.
  rewrite Hz, length_zip_with. lia.
Qed.

Lemma tmap_time_len (f : F → F) (x : tensor3 F) (T : nat) :
  time_len x T → time_len (tmap f x) T.
Proof.
  unfold time_len, tmap. intros Hx. rewrite Forall_fmap.
  eapply Forall_impl; [exact Hx|]. intros ex Hex. cbn.
  rewrite Forall_fmap. eapply Forall_impl; [exact Hex|]. intros ch Hch.
  cbn. by rewrite length_map.
Qed.

Lemma tslice_Dim1_time_len (lo hi : nat) (x : tensor3 F) (T : nat) :
  time_len x T → time_len (tslice Dim1 lo hi x) T.
Proof.
  unfold time_len, tslice. intros Hx. rewrite Forall_fmap.
  eapply Forall_impl; [exact Hx|]. intros ex Hex. cbn.
  by apply Forall_take, Forall_drop.
Qed.

Lemma F_glu_Dim1_time_len (x z : tensor3 F) (T : nat) :
  time_len x T → F_glu x Dim1 = Ok z → time_len z T.
Proof.
  intros Hx. unfold F_glu. case_decide; [|done].
  apply tzip_time_len.
  - by apply tslice_Dim1_time_len.
  - by apply tmap_time_len, tslice_Dim1_time_len.
Qed.

Lemma tsplit_Dim1_time_len (s : nat) (x a b : tensor3 F) (T : nat) :
  time_len x T → tsplit s Dim1 x ≫= unpack2 = Ok (a, b) →
  time_len a T ∧ time_len b T.
Proof.
  intros Hx. unfold tsplit. case_decide; [done|]. rewrite bind_Ok.
  destruct (seq 0 _) as [|i [|j [|]]]; try done.
  cbn. intros [= <- <-]. split; by apply tslice_Dim1_time_len.
Qed.

(** Every channel that the convolution returns has the framework's output
    length. *)
Lemma conv_forward_time_len (m : layer F) (x y : tensor3 F) :
  conv_forward m x = Ok y →
  ((1 ≤ l_kernel_size m)%Z ∧ (1 ≤ l_dilation m)%Z ∧ (0 ≤ l_padding m)%Z)
  ∧ time_len y (tsize DimLast x + 2 * Z.to_nat (l_padding m)
                - Z.to_nat (l_dilation m) * (Z.to_nat (l_kernel_size m) - 1)).
Proof.
  unfold conv_forward. case_decide; [|done]. case_decide; [|done].
  intros [= <-]. split; [done|]. unfold time_len. rewrite Forall_fmap.
  apply Forall_true. intros ex. cbn. rewrite Forall_fmap.
  apply Forall_true. intros o. cbn. by rewrite length_map, length_seq.
Qed.

Lemma trim_time_len (y : tensor3 F) (L T : nat) :
  T ≤ L → time_len y L → time_len (tslice DimLast 0 T y) T.
Proof.
  intros HTL. unfold time_len, tslice. intros Hy. rewrite Forall_fmap.
  eapply Forall_impl; [exact Hy|]. intros ex Hex. cbn.
  rewrite Forall_fmap. eapply Forall_impl; [exact Hex|]. intros ch Hch.
  cbn in *. rewrite length_take, ?length_drop. lia.
Qed.

Lemma shape3_time_len (x : tensor3 F) (B C T : nat) :
  shape3 x B C T → time_len x T.
Proof.
  intros [_ Hx]. unfold time_len. eapply Forall_impl; [exact Hx|].
  by intros ex [_ Hex].
Qed.

(** C6: whatever a causal block with the default padding returns for an
    input of shape (B, C, T) has [T] time steps in every channel, for any
    kernel size and dilation; and with equal channel counts in and out it
    does return, an output of shape (B, C, T). *)
Theorem causal_forward_length (drop : F → tensor3 F → tensor3 F)
    (blk : HighwayConv1d F) (x : tensor3 F) (B C T : nat) :
  causal blk = true →
  l_padding (conv blk)
    = default_padding true (l_kernel_size (conv blk)) (l_dilation (conv blk)) →
  0 < B → 0 < C →
  shape3 x B C T →
  shape3 (F_dropout drop x (dropout blk) (training blk)) B C T →
  (∀ blk' out, forward drop blk x = Ok (blk', out) → time_len out T)
  ∧ ((1 ≤ l_kernel_size (conv blk))%Z → (1 ≤ l_dilation (conv blk))%Z →
     l_in_channels (conv blk) = Z.of_nat C →
     l_out_channels (conv blk) = (2 * Z.of_nat C)%Z →
     0 < T →
     ∃ out, forward drop blk x = Ok (blk, out) ∧ shape3 out B C T).
Proof.
  intros Hc Hp HB HC Hx Hxd. split.
  - intros blk' out. unfold forward, _forward.
    destruct (conv_forward _ _) as [y0|] eqn:Hy0; [|done].
    apply conv_forward_time_len in Hy0 as [(Hk & Hd & _) Hy0].
    rewrite (tsize_DimLast_shape3 _ B C T Hxd) in Hy0 by done.
    rewrite bind_Ok, Hc, (tsize_DimLast_shape3 x B C T) by done.
    cbn beta iota. rewrite bind_Ok.
    assert (Hy : time_len (tslice DimLast 0 T y0) T).
    { eapply trim_time_len; [|exact Hy0].
      unfold default_padding in Hp. nia. }
    pose proof (shape3_time_len x B C T Hx) as Hxt.
    destruct (glu blk).
    + destruct (F_glu _ _) as [g|] eqn:Hg; [|done]. rewrite bind_Ok.
      apply (F_glu_Dim1_time_len _ _ T) in Hg; [|done].
      destruct (tzip fadd g x) as [s|] eqn:Hs; [|done]. rewrite bind_Ok.
      intros [= _ <-]. apply tmap_time_len.
      by apply (tzip_time_len fadd g x).
    + destruct (tsplit _ _ _ ≫= unpack2) as [[a b]|] eqn:Hab; [|done].
      rewrite bind_Ok. cbn beta iota.
      apply (tsplit_Dim1_time_len _ _ _ _ T) in Hab as [Ha Hb]; [|done].
      destruct (tzip fmul _ a) as [l|] eqn:Hl; [|done]. rewrite bind_Ok.
      destruct (tzip fmul _ x) as [r|] eqn:Hr; [|done]. rewrite bind_Ok.
      destruct (tzip fadd l r) as [s|] eqn:Hs; [|done]. rewrite bind_Ok.
      intros [= _ <-].
      apply (tzip_time_len fadd l r); [| |done].
      * apply (tzip_time_len fmul _ a _ T) in Hl; [done| |done].
        by apply tmap_time_len.
      * apply (tzip_time_len fmul _ x _ T) in Hr; [done| |done].
        by do 2 apply tmap_time_len.
  - intros Hk Hd Hin Hout HT.
    destruct (causal_conv_trimmed (conv blk) _ B C T Hk Hd Hp Hin Hout HB HC HT Hxd)
      as (y0 & Hy0 & Htrim).
    eexists. split.
    + apply (forward_entries drop blk x y0 B C T); try done.
      rewrite Hc, (tsize_DimLast_shape3 x B C T) by done.
      rewrite Htrim. apply shape3_tab3.
    + apply shape3_tab3.
Qed.

End ForwardFacts.

(** ** Incremental and batch forward passes *)

Lemma mjoin_singletons {A I} (g : I → A) (l : list I) :
  mjoin (map (λ i, [g i]) l) = map g l.
Proof. induction l as [|i l IH]; [done|]. cbn. f_equal. apply IH. Qed.

Lemma replicate_tab {A} (n : nat) (v : A) : replicate n v = tab n (λ _, v).
Proof.
  apply list_eq. intros i. destruct (decide (i < n)).
  - by rewrite lookup_replicate_2, lookup_tab by done.
  - rewrite lookup_tab_ge by lia. apply lookup_replicate_None. lia.
Qed.

Lemma shift_tab {A} (p : nat) (g : nat → A) (v : A) :
  drop 1 (tab (p + 1) g) ++ [v]
  = tab (p + 1) (λ s, if decide (s < p) then g (S s) else v).
Proof.
  apply list_eq. intros i. destruct (decide (i < p)).
  - rewrite lookup_app_l by (rewrite length_drop, length_tab; lia).
    rewrite lookup_drop, !lookup_tab by lia. by rewrite decide_True.
  - destruct (decide (i = p)) as [->|].
    + rewrite lookup_app_r by (rewrite length_drop, length_tab; lia).
      rewrite length_drop, length_tab, lookup_tab by lia.
      replace (p - (p + 1 - 1)) with 0 by lia. by rewrite decide_False.
    + rewrite lookup_tab_ge by lia. apply lookup_ge_None.
      rewrite length_app, length_drop, length_tab. cbn. lia.
Qed.

Lemma zip_with_tab {A B C} (op : A → B → C) (n : nat) (f : nat → A)
    (g : nat → B) :
  zip_with op (tab n f) (tab n g) = tab n (λ i, op (f i) (g i)).
Proof.
  apply list_eq. intros i. rewrite lookup_zip_with.
  destruct (decide (i < n)).
  - by rewrite !lookup_tab by done.
  - by rewrite !lookup_tab_ge by lia.
Qed.

Section IncrementalFacts.
Context `{Scalar F}.

Lemma time_step_tab (x : tensor3 F) (B C T n : nat) :
  shape3 x B C T → time_step x n = tab3 B 1 C (λ b _ c, at3 x b c n).
Proof.
  intros Hx. unfold time_step, tab3. rewrite map_eta_tab, (proj1 Hx).
  apply tab_ext. intros b Hb. cbn. f_equal.
  destruct (shape3_lookup x B C T b Hx Hb) as [HC _].
  by rewrite map_eta_tab, HC.
Qed.

(** One incremental step of the convolution: the buffer moves on by one
    time step. *)
Lemma conv_incremental_step (m : layer F) (x : tensor3 F) (B C T n : nat) :
  let k := Z.to_nat (l_kernel_size m) in
  let d := Z.to_nat (l_dilation m) in
  let P := (k - 1) * d in
  (1 ≤ l_kernel_size m)%Z → (1 ≤ l_dilation m)%Z →
  Z.to_nat (l_in_channels m) = C →
  shape3 x B C T →
  (l_input_buffer m = Some (buffer_after x B C P n)
   ∨ n = 0 ∧ l_input_buffer m = None) →
  conv_incremental_forward m (time_step x n)
  = Ok (with_buffer m (Some (buffer_after x B C P (n + 1))),
        tab3 B 1 (Z.to_nat (l_out_channels m)) (λ b _ o,
          affine (l_bias m !!! o) (l_weight m !!! o)
                 (buffer_window (buffer_after x B C P (n + 1) !!! b) C k d))).
Proof.
  intros k d P Hk Hd Hin Hx Hbuf. unfold conv_incremental_forward.
  rewrite decide_True by done. rewrite Hin. fold k d P.
  rewrite (time_step_tab x B C T n Hx).
  change (tab3 B 1 C ?f) with (tab B (λ b, tab 1 (λ s, tab C (f b s)))).
  rewrite (mapM_tab_Ok _ (λ b, tab C (λ c, at3 x b c n))).
  2:{ intros b Hb. cbn. by rewrite length_tab, decide_True. }
  rewrite bind_Ok, length_tab.
  assert (Hold : match l_input_buffer m with
                 | Some buf => buf
                 | None => replicate B (replicate (P + 1) (zeros C))
                 end = buffer_after x B C P n).
  { destruct Hbuf as [-> | [-> ->]]; [done|].
    unfold buffer_after, tab3, zeros.
    rewrite !replicate_tab. apply tab_ext. intros b _.
    apply tab_ext. intros s Hs. apply tab_ext. intros c _.
    by rewrite decide_False by lia. }
  rewrite Hold. clear Hold.
  assert (Hlb : ∀ n', length (buffer_after x B C P n') = B).
  { intros n'. apply length_tab. }
  rewrite decide_True by (by rewrite Hlb, length_tab).
  assert (Hnew : zip_with (λ (b : list (list F)) row, drop 1 b ++ [row])
                   (buffer_after x B C P n)
                   (tab B (λ b, tab C (λ c, at3 x b c n)))
                 = buffer_after x B C P (n + 1)).
  { unfold buffer_after, tab3. rewrite zip_with_tab.
    apply tab_ext. intros b _.
    rewrite shift_tab. apply tab_ext. intros s Hs.
    destruct (decide (s < P)).
    - apply tab_ext. intros c _.
      destruct (decide (P + 1 ≤ n + S s)).
      + rewrite decide_True by lia. f_equal. lia.
      + by rewrite decide_False by lia.
    - apply tab_ext. intros c _. rewrite decide_True by lia. f_equal. lia. }
  rewrite Hnew.
  rewrite (map_eta_tab _ (buffer_after x B C P (n + 1))), Hlb. done.
Qed.

(** The taps that the buffer supplies at step [t] are those of the
    causally padded batch input. *)
Lemma buffer_window_batch (m : layer F) (x : tensor3 F) (B C T b t : nat) :
  let k := Z.to_nat (l_kernel_size m) in
  let d := Z.to_nat (l_dilation m) in
  let P := (k - 1) * d in
  (1 ≤ l_kernel_size m)%Z →
  Z.to_nat (l_padding m) = P →
  shape3 x B C T → b < B → t < T →
  buffer_window (buffer_after x B C P (t + 1) !!! b) C k d
  = batch_window (map (λ ch, zeros P ++ ch ++ zeros P) (x !!! b)) k d t.
Proof.
  intros k d P Hk Hp Hx Hb Ht. unfold buffer_window, batch_window.
  destruct (shape3_lookup x B C T b Hx Hb) as [HC HT].
  rewrite map_map, (map_eta_tab _ (x !!! b)), HC.
  change (map ?f (seq 0 C)) with (tab C f). apply tab_ext. intros c Hc.
  change (map ?f (seq 0 k)) with (tab k f). apply tab_ext. intros j Hj.
  assert (HjP : j * d ≤ P) by (unfold P; nia).
  unfold buffer_after, tab3. rewrite !lookup_total_tab by lia.
  unfold zeros. destruct (decide (P + 1 ≤ t + 1 + j * d)).
  - rewrite lookup_total_app_r by (rewrite length_replicate; lia).
    rewrite length_replicate.
    rewrite lookup_total_app_l by (rewrite HT by done; lia).
    unfold at3. f_equal. lia.
  - rewrite lookup_total_app_l by (rewrite length_replicate; lia).
    by rewrite lookup_total_replicate_2 by lia.
Qed.

(** One incremental step of a causal block outside training. *)
Lemma incremental_forward_step (drop : F → tensor3 F → tensor3 F)
    (blk : HighwayConv1d F) (x : tensor3 F) (B C T n : nat)
    (buf : option (tensor3 F)) :
  let m := conv blk in
  let P := (Z.to_nat (l_kernel_size m) - 1) * Z.to_nat (l_dilation m) in
  training blk = false →
  (1 ≤ l_kernel_size m)%Z → (1 ≤ l_dilation m)%Z →
  Z.to_nat (l_padding m) = P →
  l_in_channels m = Z.of_nat C → l_out_channels m = (2 * Z.of_nat C)%Z →
  0 < B → 0 < C → n < T → shape3 x B C T →
  buffer_state x B C P n buf →
  incremental_forward drop (with_conv blk (with_buffer m buf)) (time_step x n)
  = Ok (with_conv blk (with_buffer m (Some (buffer_after x B C P (n + 1)))),
        tab3 B 1 C (λ b _ c, block_entry blk x C b c n)).
Proof.
  intros m P Htr Hk Hd Hp Hin Hout HB HC Hn Hx Hbuf.
  unfold incremental_forward, _forward. cbn [training dropout conv with_conv].
  rewrite Htr. cbn [F_dropout].
  rewrite (conv_incremental_step (with_buffer m buf) x B C T n)
    by (cbn; done || lia).
  cbn [with_buffer l_bias l_weight l_kernel_size l_dilation l_out_channels
       l_in_channels l_padding].
  fold m P. rewrite Hout.
  replace (Z.to_nat (2 * Z.of_nat C)) with (2 * C) by lia.
  rewrite (time_step_tab x B C T n Hx).
  rewrite bind_Ok. cbn beta iota. rewrite bind_Ok. cbn beta iota.
  cbn [causal glu with_conv].
  destruct (glu blk) eqn:Hglu.
  - rewrite F_glu_DimLast_tab3, bind_Ok by lia.
    rewrite tzip_tab3, bind_Ok, tmap_tab3.
    do 2 f_equal. apply tab3_ext. intros b s c Hb Hs Hc.
    unfold block_entry, conv_entry. rewrite Hglu. cbn [gate]. fold m.
    rewrite Hp. subst P.
    by rewrite <- !(buffer_window_batch m x B C T b n) by done.
  - rewrite tsplit_DimLast_tab3, bind_Ok by lia. cbn beta iota.
    rewrite !tmap_tab3.
    rewrite !tzip_tab3, !bind_Ok. rewrite tzip_tab3, bind_Ok.
    do 2 f_equal. apply tab3_ext. intros b s c Hb Hs Hc.
    unfold block_entry, conv_entry. rewrite Hglu. cbn [gate]. fold m.
    rewrite Hp. subst P.
    by rewrite <- !(buffer_window_batch m x B C T b n) by done.
Qed.

(** A run of incremental steps from time step [n] on. *)
Lemma incremental_run_steps (drop : F → tensor3 F → tensor3 F)
    (blk : HighwayConv1d F) (x : tensor3 F) (B C T : nat) :
  let m := conv blk in
  let P := (Z.to_nat (l_kernel_size m) - 1) * Z.to_nat (l_dilation m) in
  training blk = false →
  (1 ≤ l_kernel_size m)%Z → (1 ≤ l_dilation m)%Z →
  Z.to_nat (l_padding m) = P →
  l_in_channels m = Z.of_nat C → l_out_channels m = (2 * Z.of_nat C)%Z →
  0 < B → 0 < C → shape3 x B C T →
  ∀ len n buf,
    n + len ≤ T → buffer_state x B C P n buf →
    ∃ blk',
      incremental_run drop (with_conv blk (with_buffer m buf))
                      (map (time_step x) (seq n len))
      = Ok (blk', map (λ t, tab3 B 1 C (λ b _ c, block_entry blk x C b c t))
                      (seq n len)).
Proof.
  intros m P Htr Hk Hd Hp Hin Hout HB HC Hx. subst m P.
  induction len as [|len IH]; intros n buf Hlen Hbuf.
  - eexists. done.
  - cbn [seq map incremental_run].
    rewrite (incremental_forward_step drop blk x B C T n buf)
      by (done || lia).
    rewrite bind_Ok. cbn beta iota.
    edestruct (IH (S n)) as [blk' Hrun]; [|left; reflexivity|].
    { lia. }
    rewrite Nat.add_1_r, Hrun, bind_Ok. eexists. done.
Qed.

End IncrementalFacts.

Section Equivalence.
Context `{Scalar F}.

Lemma with_conv_eta (blk : HighwayConv1d F) :
  l_input_buffer (conv blk) = None →
  blk = with_conv blk (with_buffer (conv blk) None).
Proof.
  destruct blk as [? ? ? ? m]. destruct m. cbn. intros ->. done.
Qed.

Lemma cat_time_tab (B C T : nat) (e : nat → nat → nat → F) :
  cat_time B (map (λ t, tab3 B 1 C (λ b _ c, e b c t)) (seq 0 T))
  = tab3 B T C (λ b t c, e b c t).
Proof.
  unfold cat_time, tab3.
  change (map ?f (seq 0 B)) with (tab B f). apply tab_ext. intros b Hb.
  rewrite map_map.
  erewrite map_ext; [apply mjoin_singletons|]. intros t. cbn beta.
  by rewrite lookup_total_tab by done.
Qed.

Lemma transpose12_tab (B C T : nat) (e : nat → nat → nat → F) :
  transpose12 T (tab3 B C T e) = tab3 B T C (λ b t c, e b c t).
Proof.
  unfold transpose12, tab3. rewrite map_tab. apply tab_ext. intros b Hb.
  change (map ?f (seq 0 T)) with (tab T f). apply tab_ext. intros t Ht.
  rewrite map_tab. apply tab_ext. intros c Hc.
  by rewrite lookup_total_tab by done.
Qed.

(** C1, as it holds: for a causal block in evaluation mode, with the
    default padding, equal input and output channel counts and a cleared
    buffer, the [T] incremental calls on the successive time steps of an
    input of shape (B, C, T) return outputs whose concatenation along time
    is the batch output with the channel and time axes exchanged. *)
Theorem incremental_matches_batch (drop : F → tensor3 F → tensor3 F)
    (blk : HighwayConv1d F) (x : tensor3 F) (B C T : nat) :
  causal blk = true → training blk = false →
  (1 ≤ l_kernel_size (conv blk))%Z → (1 ≤ l_dilation (conv blk))%Z →
  l_padding (conv blk)
    = default_padding true (l_kernel_size (conv blk)) (l_dilation (conv blk)) →
  l_in_channels (conv blk) = Z.of_nat C →
  l_out_channels (conv blk) = (2 * Z.of_nat C)%Z →
  l_input_buffer (conv blk) = None →
  0 < B → 0 < C → 0 < T →
  shape3 x B C T →
  ∃ out blk' outs,
    forward drop blk x = Ok (blk, out)
    ∧ incremental_run drop blk (map (time_step x) (seq 0 T)) = Ok (blk', outs)
    ∧ length outs = T
    ∧ cat_time B outs = transpose12 T out.
Proof.
  intros Hc Htr Hk Hd Hp Hin Hout Hbuf HB HC HT Hx.
  assert (Hxd : F_dropout drop x (dropout blk) (training blk) = x)
    by by rewrite Htr.
  destruct (causal_conv_trimmed (conv blk) x B C T Hk Hd Hp Hin Hout HB HC HT Hx)
    as (y0 & Hy0 & Htrim).
  assert (Hfwd : forward drop blk x
                 = Ok (blk, tab3 B C T (λ b c t, block_entry blk x C b c t))).
  { rewrite (forward_entries drop blk x y0 B C T); try done.
    - rewrite Hc, (tsize_DimLast_shape3 x B C T), Htrim by done.
      do 2 f_equal. apply tab3_ext. intros b c t Hb Hct Ht.
      unfold block_entry. by rewrite !at3_tab3 by lia.
    - by rewrite Hxd.
    - rewrite Hc, (tsize_DimLast_shape3 x B C T), Htrim by done.
      apply shape3_tab3. }
  assert (HP : Z.to_nat (l_padding (conv blk))
               = (Z.to_nat (l_kernel_size (conv blk)) - 1)
                 * Z.to_nat (l_dilation (conv blk))).
  { unfold default_padding in Hp. nia. }
  destruct (incremental_run_steps drop blk x B C T Htr Hk Hd HP Hin Hout HB HC Hx
              T 0 None) as [blk' Hrun]; [lia | by right |].
  rewrite <- with_conv_eta in Hrun by done.
  eexists _, blk', _. split_and!; [done | done | |].
  - by rewrite length_map, length_seq.
  - by rewrite cat_time_tab, transpose12_tab.
Qed.

(** The example block on the example input: the batch pass and the two
    incremental steps. *)
Lemma ex_forward_noncausal (glu : bool) :
  forward no_drop (ex_blk false glu) ex_x
  = Ok (ex_blk false glu,
        [[[gate glu (dot3 (of_Z 0) (of_Z 0) (of_Z 1) (of_Z 0) (of_Z 0) (of_Z 1))
                    (dot3 (of_Z 0) (of_Z 0) (of_Z 0) (of_Z 0) (of_Z 0) (of_Z 1))
                    (of_Z 0);
           gate glu (dot3 (of_Z 0) (of_Z 0) (of_Z 1) (of_Z 0) (of_Z 1) (of_Z 0))
                    (dot3 (of_Z 0) (of_Z 0) (of_Z 0) (of_Z 0) (of_Z 1) (of_Z 0))
                    (of_Z 1)]]]).
Proof. by destruct glu. Qed.

Lemma ex_incremental (causal glu : bool) :
  ∃ blk',
    incremental_run no_drop (ex_blk causal glu) (map (time_step ex_x) (seq 0 2))
    = Ok (blk',
          [[[[gate glu
                (dot3 (of_Z 0) (of_Z 0) (of_Z 1) (of_Z 0) (of_Z 0) (of_Z 0))
                (dot3 (of_Z 0) (of_Z 0) (of_Z 0) (of_Z 0) (of_Z 0) (of_Z 0))
                (of_Z 0)]]];
           [[[gate glu
                (dot3 (of_Z 0) (of_Z 0) (of_Z 1) (of_Z 0) (of_Z 0) (of_Z 1))
                (dot3 (of_Z 0) (of_Z 0) (of_Z 0) (of_Z 0) (of_Z 0) (of_Z 1))
                (of_Z 1)]]]]).
Proof. eexists. by destruct causal, glu. Qed.

Lemma ex_first_entries (e0 e1 i0 i1 : F) :
  at3 (transpose12 2 [[[e0; e1]]]) 0 0 0 = e0
  ∧ at3 (cat_time 1 [[[[i0]]]; [[[i1]]]]) 0 0 0 = i0.
Proof. done. Qed.

End Equivalence.

(** ** Runs over the real numbers *)

Section RealRuns.
Open Scope R_scope.

Lemma Rsigmoid_0 : Rsigmoid 0 = 1 / 2.
Proof. unfold Rsigmoid. rewrite Ropp_0, exp_0. lra. Qed.

Lemma shape3_ex_x : shape3 (F := R) ex_x 1 1 2.
Proof. split; [done|]. repeat constructor. Qed.

(** C1, as stated, fails: on a non-causal block with kernel size 3 the
    first batch output is 1/2 while the first incremental output is 0. *)
Lemma incremental_differs_noncausal :
  ∃ out blk' outs,
    forward (F := R) no_drop (ex_blk false false) ex_x
      = Ok (ex_blk false false, out)
    ∧ incremental_run no_drop (ex_blk false false)
                      (map (time_step ex_x) (seq 0 2))
      = Ok (blk', outs)
    ∧ at3 (transpose12 2 out) 0 0 0 = 1 / 2
    ∧ at3 (cat_time 1 outs) 0 0 0 = 0
    ∧ cat_time 1 outs ≠ transpose12 2 out.
Proof.
  destruct (ex_incremental (F := R) false false) as [blk' Hrun].
  eexists _, blk', _.
  split; [apply ex_forward_noncausal|]. split; [exact Hrun|].
  match goal with
  | |- at3 (transpose12 2 [[[?e0; ?e1]]]) 0 0 0 = _
       ∧ at3 (cat_time 1 [[[[?i0]]]; [[[?i1]]]]) 0 0 0 = _ ∧ _ =>
      destruct (ex_first_entries (F := R) e0 e1 i0 i1) as [Hb Hi];
      assert (Hbv : e0 = 1 / 2);
      [|assert (Hiv : i0 = 0)]
  end.
  - unfold gate, dot3. cbn [fadd fmul fsub fsigmoid of_Z R_scalar].
    replace (0 + 0 * 0 + 0 * 0 + 0 * 1) with 0 by lra.
    rewrite Rsigmoid_0. lra.
  - unfold gate, dot3. cbn [fadd fmul fsub fsigmoid of_Z R_scalar].
    replace (0 + 0 * 0 + 0 * 0 + 0 * 0) with 0 by lra.
    rewrite Rsigmoid_0. lra.
  - split_and!.
    + by rewrite Hb.
    + by rewrite Hi.
    + intros Heq. rewrite Heq, Hb, Hbv in Hi. lra.
Qed.

Lemma incremental_matches_batch_witness :
  ∃ out blk' outs,
    forward (F := R) no_drop (ex_blk true false) ex_x
      = Ok (ex_blk true false, out)
    ∧ incremental_run no_drop (ex_blk true false)
                      (map (time_step ex_x) (seq 0 2))
      = Ok (blk', outs)
    ∧ length outs = 2%nat
    ∧ cat_time 1 outs = transpose12 2 out.
Proof.
  apply (incremental_matches_batch no_drop (ex_blk true false) ex_x 1 1 2);
    try reflexivity; try (cbn; lia). apply shape3_ex_x.
Defined.

Lemma sinusoidal_encode_base_table_witness :
  (SinusoidalEncoding_weight (F := R) 2 3
     ≫= λ base, sinusoidal_encode base (of_Z 1))
  = position_encoding_init 2 3 (of_Z 1) true
  ∧ ((0 < 2)%nat →
     ∃ tbl, position_encoding_init (F := R) 2 3 (of_Z 1) true = Ok (Mat tbl)).
Proof.
  apply (sinusoidal_encode_base_table (F := R) 2 3).
  intros v. apply Rmult_1_l.
Defined.

Lemma position_encoding_init_table_witness :
  ∃ tbl,
    position_encoding_init (F := R) 2 3 1 true = Ok (Mat tbl)
    ∧ length tbl = 2%nat
    ∧ tbl !! 0%nat = Some (replicate 3 (of_Z 0))
    ∧ ∀ pos i, (1 ≤ pos)%nat → (pos < 2)%nat → (i < 3)%nat →
        tbl !! pos ≫= (.!! i)
        = Some ((if Nat.even i then sin else cos)
                  (1 * IZR (Z.of_nat pos)
                   / Rpower 10000 (IZR (Z.of_nat (2 * i)) / 3))).
Proof.
  exact (position_encoding_init_table (F := R) 2 3 1 true
           (Nat.lt_0_succ 1)).
Defined.

Lemma sinusoidal_indices_in_range_witness :
  (∃ tbl, position_encoding_init (F := R) 2 3 1 true = Ok (Mat tbl))
  ∧ (∃ y, sinusoidal_encode (Mat [[0; 0; 0]; [1; 2; 3]]) 1 = Ok (Mat y))
  ∧ Forall (λ i, (i < 3)%nat) (seq 0 3)
  ∧ Forall (λ c, (c < 3)%nat) (slice_indices 0 2 3)
  ∧ Forall (λ c, (c < 3)%nat) (slice_indices 1 2 3).
Proof.
  apply (sinusoidal_indices_in_range (F := R) 2 3 1 1 true
           [[0; 0; 0]; [1; 2; 3]]).
  - lia.
  - repeat constructor.
Defined.

Lemma get_mask_from_lengths_spec_witness :
  ∃ mask,
    get_mask_from_lengths [[[()]; [()]; [()]]; [[()]; [()]; [()]]]
                          [2%nat; 3%nat]
    = Ok mask
    ∧ mask_bools mask = [[false; false; true]; [false; false; false]].
Proof.
  destruct (get_mask_from_lengths_spec
              [[[()]; [()]; [()]]; [[()]; [()]; [()]]] [2%nat; 3%nat] 2 3)
    as (mask & Hmask & _ & _ & _ & Hex).
  - reflexivity.
  - repeat constructor.
  - reflexivity.
  - exists mask. split; [exact Hmask | exact (Hex eq_refl eq_refl)].
Defined.

Lemma dilation_assertion_witness :
  (LinearizedConv1d (F := R) (λ _ _, []) 4 8 3 [2%Z] None 0
                    {| kw_padding := None; kw_dilation := None |} []
   = ([], Raise AssertionError)
   ∧ ConvTBC (F := R) (λ _ _, []) 4 8 3 [2%Z] None 0
             {| kw_padding := None; kw_dilation := None |} []
     = ([], Raise AssertionError))
  ∧ ((LinearizedConv1d (F := R) (λ _ _, []) 4 8 3 [1%Z] None 0
                       {| kw_padding := None; kw_dilation := None |} []).2
     ≠ Raise AssertionError
     ∧ (ConvTBC (F := R) (λ _ _, []) 4 8 3 [1%Z] None 0
                {| kw_padding := None; kw_dilation := None |} []).2
       ≠ Raise AssertionError).
Proof.
  split.
  - apply (dilation_assertion (F := R) (λ _ _, []) 4 8 3 2 [] None 0
             {| kw_padding := None; kw_dilation := None |} []).
    lia.
  - apply (dilation_assertion (F := R) (λ _ _, []) 4 8 3 1 [] None 0
             {| kw_padding := None; kw_dilation := None |} []).
    reflexivity.
Defined.

Lemma highway_std_mul_witness :
  ∃ blk,
    HighwayConv1d_init (F := R) (λ _ std, [[[std]]]) 4 4 3 None 1 true 0 None
                       false []
    = ([Conv1d_cls], Ok blk)
    ∧ l_weight (conv blk) = [[[sqrt (1 * (1 - 0) / IZR (3 * 4))]]].
Proof.
  destruct (highway_std_mul (F := R) (λ _ std, [[[std]]]) 4 4 3 None 1 true 0
              false {| kw_padding := None; kw_dilation := None |} [])
    as [(blk & Hblk & Hw) _].
  - lia.
  - exists blk. split; [exact Hblk | exact Hw].
Defined.

Lemma highway_forward_formula_witness :
  ∃ out,
    forward (F := R) no_drop (ex_blk false false) ex_x
    = Ok (ex_blk false false, out).
Proof.
  eexists.
  eapply (highway_forward_formula (F := R) no_drop (ex_blk false false) ex_x
            _ 1 1 2).
  - reflexivity.
  - lia.
  - lia.
  - apply shape3_ex_x.
  - reflexivity.
  - split; [reflexivity|]. repeat constructor.
Defined.

Lemma glu_forward_formula_witness :
  ∃ out,
    forward (F := R) no_drop (ex_blk false true) ex_x
    = Ok (ex_blk false true, out).
Proof.
  eexists.
  eapply (glu_forward_formula (F := R) no_drop (ex_blk false true) ex_x
            _ 1 1 2).
  - reflexivity.
  - lia.
  - lia.
  - apply shape3_ex_x.
  - reflexivity.
  - split; [reflexivity|]. repeat constructor.
Defined.

Lemma causal_forward_length_witness :
  (∀ blk' out, forward (F := R) no_drop (ex_blk true true) ex_x
               = Ok (blk', out) → time_len out 2)
  ∧ ∃ out,
      forward (F := R) no_drop (ex_blk true true) ex_x
        = Ok (ex_blk true true, out)
      ∧ shape3 out 1 1 2.
Proof.
  destruct (causal_forward_length (F := R) no_drop (ex_blk true true) ex_x
              1 1 2) as [Hlen Hret];
    try reflexivity; try lia; try apply shape3_ex_x.
  split; [exact Hlen|].
  apply Hret; try reflexivity; cbn; lia.
Defined.

End RealRuns.

(** * Further properties *)

(** ** Position encoding and the encoding layer *)

Lemma map_replicate {A B} (f : A → B) (n : nat) (x : A) :
  map f (replicate n x) = replicate n (f x).
Proof. induction n as [|n IH]; [done|]. cbn. by rewrite IH. Qed.

Section PositionMore.
Context `{Scalar F}.

Lemma parity_cases (c : nat) :
  (Nat.even c = true ∧ (c - 0) `mod` 2 = 0 ∧ ¬ (1 ≤ c ∧ (c - 1) `mod` 2 = 0))
  ∨ (Nat.even c = false ∧ (c - 0) `mod` 2 ≠ 0 ∧ 1 ≤ c ∧ (c - 1) `mod` 2 = 0).
Proof.
  destruct (Nat.even c) eqn:Hev.
  - left. apply Nat.even_spec in Hev as [k ->]. split_and!; [done| |].
    + by rewrite Nat.sub_0_r, mod2_double.
    + intros [? Hm]. replace (2 * k - 1) with (1 + (k - 1) * 2) in Hm by lia.
      by rewrite Nat.Div0.mod_add in Hm.
  - right. assert (Hodd : Nat.odd c = true) by (by rewrite <- Nat.negb_even, Hev).
    apply Nat.odd_spec in Hodd as [k ->]. split_and!; [done| |lia|].
    + rewrite Nat.sub_0_r, Nat.add_comm, Nat.mul_comm.
      by rewrite Nat.Div0.mod_add.
    + replace (2 * k + 1 - 1) with (2 * k) by lia. apply mod2_double.
Qed.

(** The two overwrites together: sine on the even columns, cosine on the
    odd ones, below row 0. *)
Lemma lookup_sin_cos (m : list (list F)) (r c : nat) :
  overwrite fcos 1 (overwrite fsin 0 m) !! r ≫= (.!! c)
  = (m !! r ≫= (.!! c)) ≫= λ v,
      Some (if decide (1 ≤ r)
            then (if Nat.even c then fsin else fcos) v else v).
Proof.
  rewrite <- !lookup_overwrite.
  destruct (m !! r ≫= (.!! c)) as [v|]; [|done]. cbn. f_equal.
  destruct (decide (1 ≤ r)).
  - destruct (parity_cases c) as [(-> & H0 & H1) | (-> & H0 & H1)].
    + rewrite (decide_True (P := 1 ≤ r ∧ 0 ≤ c ∧ _)) by (split_and!; [done|lia|done]).
      by rewrite decide_False by tauto.
    + rewrite (decide_False (P := 1 ≤ r ∧ 0 ≤ c ∧ _)) by tauto.
      by rewrite decide_True by tauto.
  - by rewrite !decide_False by tauto.
Qed.

Lemma sinusoidal_encode_Mat (x : list (list F)) (w : F) (D : nat) :
  rect x D →
  sinusoidal_encode (Mat x) w
  = Ok (Mat (overwrite fcos 1 (overwrite fsin 0 (map (map (fmul w)) x)))).
Proof.
  intros Hx. unfold sinusoidal_encode. cbn [scale].
  assert (Hs : rect (map (map (fmul w)) x) D).
  { unfold rect in *. rewrite Forall_fmap. eapply Forall_impl; [done|].
    intros row Hrow. cbn. by rewrite length_map. }
  rewrite (assign_sliced_Mat _ _ D), bind_Ok by done.
  by rewrite (assign_sliced_Mat _ _ D) by by apply rect_overwrite.
Qed.

Lemma length_overwrite (f : F → F) (start : nat) (m : list (list F)) :
  length (overwrite f start m) = length m.
Proof. unfold overwrite. by rewrite length_imap. Qed.

(** X1: [sinusoidal_encode] keeps the shape of a matrix, scales row 0 by
    [w] and leaves it otherwise alone, and below row 0 turns entry [v] of
    column [c] into [sin(w*v)] for even [c] and [cos(w*v)] for odd [c]. *)
Theorem sinusoidal_encode_entries (x : list (list F)) (w : F) (D : nat) :
  rect x D →
  ∃ y,
    sinusoidal_encode (Mat x) w = Ok (Mat y)
    ∧ length y = length x
    ∧ rect y D
    ∧ y !! 0 = map (fmul w) <$> x !! 0
    ∧ ∀ r c v, 1 ≤ r → x !! r ≫= (.!! c) = Some v →
        y !! r ≫= (.!! c)
        = Some ((if Nat.even c then fsin else fcos) (fmul w v)).
Proof.
  intros Hx. eexists. split; [by apply (sinusoidal_encode_Mat x w D)|].
  assert (Hs : rect (map (map (fmul w)) x) D).
  { unfold rect in *. rewrite Forall_fmap. eapply Forall_impl; [done|].
    intros row Hrow. cbn. by rewrite length_map. }
  split_and!.
  - by rewrite !length_overwrite, length_map.
  - by do 2 apply rect_overwrite.
  - unfold overwrite. rewrite !list_lookup_imap, list_lookup_fmap.
    destruct (x !! 0); [|done]. cbn. by rewrite !decide_False by lia.
  - intros r c v Hr Hv. rewrite lookup_sin_cos, list_lookup_fmap.
    destruct (x !! r) as [row|]; [|done]. cbn in *.
    rewrite list_lookup_fmap, Hv. cbn. by rewrite decide_True.
Qed.

Lemma scale_raw_table (w : F) (N D : nat) :
  fmul w (of_Z 0) = of_Z 0 →
  (∀ a q : F, fmul w (fdiv (fmul (of_Z 1) a) q) = fdiv (fmul w a) q) →
  map (map (fmul w)) (raw_table (of_Z 1) N D) = raw_table w N D.
Proof.
  intros H0 H1. unfold raw_table. rewrite map_map. apply map_ext.
  intros pos. unfold raw_row. case_decide.
  - rewrite map_map. apply map_ext. intros i. unfold raw_entry. apply H1.
  - by rewrite map_replicate, H0.
Qed.

(** X2: the scale [w] of the layer is the position rate of the builder:
    re-encoding the stored base table with [w] gives the sinusoidal table
    of rate [w], provided [w * 0 = 0] and [w * (1.0 * a / q) = w * a / q]. *)
Theorem sinusoidal_encode_is_position_rate (N D : nat) (w : F) :
  fmul w (of_Z 0) = of_Z 0 →
  (∀ a q : F, fmul w (fdiv (fmul (of_Z 1) a) q) = fdiv (fmul w a) q) →
  (SinusoidalEncoding_weight N D ≫= λ base, sinusoidal_encode base w)
  = position_encoding_init N D w true.
Proof.
  intros H0 H1. unfold SinusoidalEncoding_weight.
  rewrite position_encoding_init_raw, bind_Ok.
  destruct N as [|N]; [done|].
  rewrite np_array_raw_table, position_encoding_init_sin by lia.
  rewrite (sinusoidal_encode_Mat _ _ D) by apply rect_raw_table.
  by rewrite scale_raw_table.
Qed.

(** A table without rows cannot be made sinusoidal: the array of no
    rows is one-dimensional, so the builder returns it as it is when
    [sinusoidal] is off and raises on the two-index assignment when it is
    on, as does [sinusoidal_encode] on any one-dimensional tensor. *)
Theorem empty_table_is_one_dimensional (D : nat) (rate w : F) (v : list F) :
  position_encoding_init 0 D rate false = Ok (Vec [])
  ∧ position_encoding_init 0 D rate true = Raise IndexError
  ∧ sinusoidal_encode (Vec v) w = Raise IndexError
  ∧ (SinusoidalEncoding_weight 0 D ≫= λ base, sinusoidal_encode base w)
    = Raise IndexError.
Proof. done. Qed.

Lemma mapM_Raise {A B} (g : A → result B) (l : list A) :
  Exists (λ a, ∃ e, g a = Raise e) l → ∃ e, mapM g l = Raise e.
Proof.
  induction 1 as [a l [e He] | a l _ [e IH]].
  - exists e. cbn. by rewrite He.
  - cbn. destruct (g a) as [b|e']; [|by eexists]. cbn.
    rewrite IH. by eexists.
Qed.

Lemma mapM_lookup {A B} (g : A → result B) (l : list A) (zs : list B)
    (i : nat) (a : A) :
  mapM g l = Ok zs → l !! i = Some a → ∃ z, zs !! i = Some z ∧ g a = Ok z.
Proof.
  revert zs i. induction l as [|a' l IH]; intros zs i; [done|].
  cbn. destruct (g a') as [z'|] eqn:Hz; [|done]. cbn.
  destruct (mapM g l) as [zs'|]; [|done]. cbn. intros [= <-].
  destruct i as [|i]; cbn.
  - intros [= ->]. eauto.
  - by apply IH.
Qed.

Lemma SinusoidalEncoding_forward_base
    (renorm : F → list (list Z) → list (list F) → list (list F))
    (N D : nat) (padding_idx : option Z) (x : list (list Z)) (w : F) :
  0 < N →
  SinusoidalEncoding_init N D padding_idx None
    ≫= (λ self, SinusoidalEncoding_forward renorm self x w)
  = mapM (mapM (λ i : Z,
        if decide (0 ≤ i)%Z
        then getitem (overwrite fcos 1 (overwrite fsin 0
                        (map (map (fmul w)) (raw_table (of_Z 1) N D))))
                     (Z.to_nat i)
        else Raise IndexError)) x.
Proof.
  intros HN. unfold SinusoidalEncoding_init.
  rewrite position_encoding_init_raw, bind_Ok, bind_Ok.
  unfold SinusoidalEncoding_forward. cbn [se_weight se_max_norm se_padding_idx].
  rewrite np_array_raw_table by done.
  rewrite (sinusoidal_encode_Mat _ _ D), bind_Ok by apply rect_raw_table.
  done.
Qed.

(** X3: the layer built for [N >= 1] positions, called on indices that
    are all in [0, N), returns one vector of length [D] per index: for
    index 0 (the padding position) the zero row scaled by [w], for an
    index [i >= 1] the sines and cosines of [w * (1.0 * i / 10000^(2c/D))]
    on the even and odd columns [c]. *)
Theorem SinusoidalEncoding_forward_rows
    (renorm : F → list (list Z) → list (list F) → list (list F))
    (N D : nat) (padding_idx : option Z) (x : list (list Z)) (w : F) :
  0 < N →
  Forall (Forall (λ i, 0 ≤ i < Z.of_nat N)%Z) x →
  ∃ out,
    SinusoidalEncoding_init N D padding_idx None
      ≫= (λ self, SinusoidalEncoding_forward renorm self x w)
    = Ok out
    ∧ length out = length x
    ∧ ∀ b t i, x !! b ≫= (.!! t) = Some i →
        ∃ row,
          out !! b ≫= (.!! t) = Some row
          ∧ length row = D
          ∧ (i = 0%Z → row = replicate D (fmul w (of_Z 0)))
          ∧ ∀ c, (1 ≤ i)%Z → c < D →
              row !! c
              = Some ((if Nat.even c then fsin else fcos)
                        (fmul w (fdiv (fmul (of_Z 1) (of_Z i))
                                      (fpow (of_Z 10000)
                                            (fdiv (of_nat (2 * c))
                                                  (of_nat D)))))).
Proof.
  intros HN Hx. rewrite SinusoidalEncoding_forward_base by done.
  set (tbl := overwrite fcos 1 (overwrite fsin 0 _)).
  assert (Hlen : length tbl = N).
  { unfold tbl, raw_table.
    by rewrite !length_overwrite, !length_map, length_seq. }
  set (g := λ i : Z, if decide (0 ≤ i)%Z then getitem tbl (Z.to_nat i)
                     else Raise IndexError).
  assert (Hg : ∀ i, (0 ≤ i < Z.of_nat N)%Z → g i = Ok (tbl !!! Z.to_nat i)).
  { intros i Hi. unfold g. rewrite decide_True by lia.
    apply getitem_Ok. lia. }
  assert (Hout : mapM (mapM g) x = Ok (map (map (λ i, tbl !!! Z.to_nat i)) x)).
  { apply mapM_Ok. eapply Forall_impl; [exact Hx|]. intros xs Hxs. cbn.
    apply mapM_Ok. eapply Forall_impl; [exact Hxs|]. intros i Hi. cbn. auto. }
  rewrite Hout. eexists. split; [done|]. split; [by rewrite length_map|].
  intros b t i Hi. rewrite list_lookup_fmap.
  destruct (x !! b) as [xs|] eqn:Hb; [|done]. cbn in *.
  rewrite list_lookup_fmap, Hi. cbn. eexists. split; [done|].
  assert (Hin : (0 ≤ i < Z.of_nat N)%Z).
  { rewrite Forall_lookup in Hx. specialize (Hx b xs Hb).
    rewrite Forall_lookup in Hx. by apply (Hx t). }
  assert (Hrow : tbl !! Z.to_nat i = Some (tbl !!! Z.to_nat i)).
  { apply list_lookup_lookup_total_lt. lia. }
  assert (Hrect : rect tbl D).
  { unfold tbl. do 2 apply rect_overwrite. unfold rect. rewrite Forall_fmap.
    eapply Forall_impl; [apply (rect_raw_table (of_Z 1) N D)|].
    intros row Hr. cbn. by rewrite length_map. }
  split_and!.
  - unfold rect in Hrect. rewrite Forall_lookup in Hrect. by eapply Hrect.
  - intros ->. change (Z.to_nat 0) with 0 in *.
    apply list_lookup_total_correct. unfold tbl, overwrite.
    rewrite !list_lookup_imap, list_lookup_fmap, lookup_raw_table by done.
    cbn. rewrite !decide_False by lia. unfold raw_row.
    rewrite decide_False by lia. by rewrite map_replicate.
  - intros c Hi1 Hc.
    pose proof (lookup_sin_cos (map (map (fmul w)) (raw_table (of_Z 1) N D))
                  (Z.to_nat i) c) as Hsc.
    fold tbl in Hsc. rewrite Hrow in Hsc. cbn in Hsc. rewrite Hsc.
    rewrite list_lookup_fmap, lookup_raw_table by lia. cbn.
    rewrite list_lookup_fmap, lookup_raw_row by lia. cbn.
    rewrite decide_True by lia. unfold raw_entry, of_nat.
    by rewrite Z2Nat.id by lia.
Qed.

(** X4: an index below 0 or not below [N] makes the layer raise. *)
Theorem SinusoidalEncoding_forward_out_of_range
    (renorm : F → list (list Z) → list (list F) → list (list F))
    (N D : nat) (padding_idx : option Z) (x : list (list Z)) (w : F)
    (b t : nat) (i : Z) :
  0 < N →
  x !! b ≫= (.!! t) = Some i →
  (i < 0 ∨ Z.of_nat N ≤ i)%Z →
  ∃ e,
    SinusoidalEncoding_init N D padding_idx None
      ≫= (λ self, SinusoidalEncoding_forward renorm self x w)
    = Raise e.
Proof.
  intros HN Hi Hout. rewrite SinusoidalEncoding_forward_base by done.
  set (tbl := overwrite fcos 1 (overwrite fsin 0 _)).
  assert (Hlen : length tbl = N).
  { unfold tbl, raw_table.
    by rewrite !length_overwrite, !length_map, length_seq. }
  destruct (x !! b) as [xs|] eqn:Hb; [|done]. cbn in Hi.
  apply mapM_Raise. apply Exists_exists. exists xs.
  split; [by eapply list_elem_of_lookup_2|].
  apply mapM_Raise. apply Exists_exists. exists i.
  split; [by eapply list_elem_of_lookup_2|].
  case_decide; [|by eexists].
  exists IndexError. unfold getitem.
  by rewrite (lookup_ge_None_2 tbl) by lia.
Qed.

End PositionMore.

(** ** The length-to-mask helper *)

Section MaskMore.

Lemma fill_loop_overrun (ls : list nat) (s : nat) (mask : list (list Z)) :
  s ≤ length mask → length mask < s + length ls →
  foldM (λ mask il,
           row ← getitem mask il.1;
           setitem mask il.1 (fill_prefix il.2 row))
        mask (zip (seq s (length ls)) ls)
  = Raise IndexError.
Proof.
  revert s mask. induction ls as [|l ls IH]; intros s mask Hs Hlen.
  - cbn in Hlen. lia.
  - cbn [length seq zip_with foldM]. cbn [fst snd].
    destruct (decide (s < length mask)) as [Hlt|Hge].
    + rewrite getitem_Ok, bind_Ok by done.
      rewrite setitem_Ok, bind_Ok by done.
      apply IH; rewrite length_insert; cbn in Hlen; lia.
    + unfold getitem. by rewrite lookup_ge_None_2 by lia.
Qed.

(** X5: with no more lengths than examples the mask has shape
    (batch, max_time); an example with a length is false exactly below it
    (all false once the length reaches max_time), and an example left
    without a length is true everywhere. *)
Theorem get_mask_from_lengths_short {A} (memory : list (list (list A)))
    (memory_lengths : list nat) (batch max_time : nat) :
  length memory = batch →
  Forall (λ ex, length ex = max_time) memory →
  length memory_lengths ≤ batch →
  ∃ mask,
    get_mask_from_lengths memory memory_lengths = Ok mask
    ∧ length mask = batch
    ∧ ∀ b t, b < batch → t < max_time →
        mask_bools mask !! b ≫= (.!! t)
        = Some (match memory_lengths !! b with
                | Some l => bool_decide (l ≤ t)
                | None => true
                end).
Proof.
  intros HB HT HL. unfold get_mask_from_lengths, enumerate.
  rewrite fill_loop by (rewrite length_replicate; lia).
  rewrite bind_Ok. eexists. split; [done|].
  split; [by rewrite length_map, length_imap, length_replicate|].
  intros b t Hb Ht.
  assert (Hsize : size1 memory = max_time).
  { destruct memory as [|ex memory]; cbn in *; [lia|].
    by apply Forall_cons in HT as [? _]. }
  unfold mask_bools.
  rewrite !list_lookup_fmap, list_lookup_imap, lookup_replicate_2 by lia.
  cbn. unfold filled. rewrite decide_True by lia. rewrite Nat.sub_0_r, Hsize.
  destruct (memory_lengths !! b) as [l|]; cbn.
  - rewrite !list_lookup_fmap, lookup_fill_prefix_zeros by done. cbn.
    f_equal. destruct (decide (t < l)).
    + by rewrite bool_decide_false by lia.
    + by rewrite bool_decide_true by lia.
  - rewrite !list_lookup_fmap, lookup_replicate_2 by done. done.
Qed.

(** X6: with more lengths than examples the loop indexes a row that does
    not exist and the helper raises [IndexError]. *)
Theorem get_mask_from_lengths_too_many {A} (memory : list (list (list A)))
    (memory_lengths : list nat) :
  length memory < length memory_lengths →
  get_mask_from_lengths memory memory_lengths = Raise IndexError.
Proof.
  intros HL. unfold get_mask_from_lengths, enumerate.
  rewrite fill_loop_overrun; [done| lia |].
  rewrite length_replicate. lia.
Qed.

End MaskMore.

(** ** The factories and the constructor of the block *)

Section FactoryMore.
Context `{Scalar F}.
Variable normal_ : F → F → tensor3 F.





End FactoryMore.

(** ** The block: shapes that fit and shapes that do not *)

Section ForwardMore.
Context `{Scalar F}.

Lemma mapM_tab_Raise {A B} (g : A → result B) (n : nat) (f : nat → A)
    (e : exn) :
  0 < n → g (f 0) = Raise e → mapM g (tab n f) = Raise e.
Proof.
  intros Hn Hg. destruct n as [|n]; [lia|]. unfold tab. cbn. by rewrite Hg.
Qed.

Lemma zip_tab {A B} (n : nat) (f : nat → A) (g : nat → B) :
  zip (tab n f) (tab n g) = tab n (λ i, (f i, g i)).
Proof. apply zip_with_tab. Qed.

Lemma broadcast2_tab_mismatch {A B C} (g : A → B → result C) (n1 n2 : nat)
    (f1 : nat → A) (f2 : nat → B) :
  n1 ≠ n2 → n1 ≠ 1 → n2 ≠ 1 →
  broadcast2 g (tab n1 f1) (tab n2 f2) = Raise RuntimeError.
Proof.
  intros Hne H1 H2. unfold broadcast2.
  rewrite decide_False by by rewrite !length_tab.
  destruct n1 as [|[|n1]]; [|done|]; destruct n2 as [|[|n2]]; done.
Qed.

Lemma broadcast2_tab_Raise {A B C} (g : A → B → result C) (n : nat)
    (f1 : nat → A) (f2 : nat → B) (e : exn) :
  0 < n → g (f1 0) (f2 0) = Raise e →
  broadcast2 g (tab n f1) (tab n f2) = Raise e.
Proof.
  intros Hn Hg. unfold broadcast2. rewrite decide_True by by rewrite !length_tab.
  rewrite zip_tab. by apply mapM_tab_Raise.
Qed.

(** Time axes of different sizes, neither of them 1, do not broadcast. *)
Lemma tzip_time_mismatch (op : F → F → F) (B C T1 T2 : nat)
    (f g : nat → nat → nat → F) :
  0 < B → 0 < C → T1 ≠ T2 → T1 ≠ 1 → T2 ≠ 1 →
  tzip op (tab3 B C T1 f) (tab3 B C T2 g) = Raise RuntimeError.
Proof.
  intros HB HC Hne H1 H2. unfold tzip, tab3.
  apply broadcast2_tab_Raise; [done|].
  apply broadcast2_tab_Raise; [done|].
  by apply broadcast2_tab_mismatch.
Qed.

(** Nor do channel axes of different sizes, neither of them 1. *)
Lemma tzip_channel_mismatch (op : F → F → F) (B C1 C2 T1 T2 : nat)
    (f g : nat → nat → nat → F) :
  0 < B → C1 ≠ C2 → C1 ≠ 1 → C2 ≠ 1 →
  tzip op (tab3 B C1 T1 f) (tab3 B C2 T2 g) = Raise RuntimeError.
Proof.
  intros HB Hne H1 H2. unfold tzip, tab3.
  apply broadcast2_tab_Raise; [done|].
  by apply broadcast2_tab_mismatch.
Qed.

Lemma broadcast2_singleton_r {A B C} (g : A → B → result C) (xs : list A)
    (y : B) :
  length xs ≠ 1 → broadcast2 g xs [y] = mapM (λ x, g x y) xs.
Proof.
  intros Hlen. unfold broadcast2. rewrite decide_False by done.
  by destruct xs as [|a [|b xs]].
Qed.

(** A residual with a single channel is repeated over the channels. *)
Lemma tzip_channel_broadcast (op : F → F → F) (B C T : nat)
    (f g : nat → nat → nat → F) :
  C ≠ 1 →
  tzip op (tab3 B C T f) (tab3 B 1 T g)
  = Ok (tab3 B C T (λ b c t, op (f b c t) (g b 0 t))).
Proof.
  intros HC. unfold tzip, tab3. apply broadcast2_tab. intros b _.
  change (tab 1 ?h) with [h 0].
  rewrite broadcast2_singleton_r by by rewrite length_tab.
  apply mapM_tab_Ok. intros c _. by apply broadcast2_tab.
Qed.

Lemma trim_tab3 (B C L T : nat) (f : nat → nat → nat → F) :
  tslice DimLast 0 T (tab3 B C L f) = tab3 B C (T `min` L) f.
Proof.
  unfold tslice, tab3. rewrite map_tab. apply tab_ext. intros b _.
  rewrite map_tab. apply tab_ext. intros c _.
  rewrite Nat.sub_0_r, drop_0.
  apply list_eq. intros i. destruct (decide (i < T `min` L)).
  - rewrite lookup_take_lt, !lookup_tab by lia. done.
  - rewrite lookup_tab_ge by lia. apply lookup_ge_None.
    rewrite length_take, length_tab. lia.
Qed.

(** The batch pass once the convolution has returned a tensor of
    [2 * Co] channels and [L] steps: the channel and time axes of the
    gated half must fit those of the residual. *)
Lemma forward_after_conv (drop : F → tensor3 F → tensor3 F)
    (blk : HighwayConv1d F) (x : tensor3 F) (B Ci Co T L : nat)
    (y : nat → nat → nat → F) :
  0 < B → 0 < Ci → 0 < Co →
  shape3 x B Ci T →
  conv_forward (conv blk) (F_dropout drop x (dropout blk) (training blk))
    = Ok (tab3 B (2 * Co) L y) →
  let L' := if causal blk then T `min` L else L in
  (Ci = Co → L' = T →
   forward drop blk x
   = Ok (blk, tab3 B Co T (λ b c t,
                gate (glu blk) (y b c t) (y b (Co + c) t) (at3 x b c t))))
  ∧ (Ci ≠ Co → Ci ≠ 1 → Co ≠ 1 → forward drop blk x = Raise RuntimeError)
  ∧ (Ci = Co → L' ≠ T → L' ≠ 1 → T ≠ 1 →
     forward drop blk x = Raise RuntimeError)
  ∧ (Ci = 1 → Co ≠ 1 → L' = T →
     forward drop blk x
     = Ok (blk, tab3 B Co T (λ b c t,
                  gate (glu blk) (y b c t) (y b (Co + c) t) (at3 x b 0 t)))).
Proof.
  intros HB HCi HCo Hx Hconv L'.
  assert (Hpre : ∀ Q : result (HighwayConv1d F * tensor3 F) → Prop,
            Q (if glu blk then
                 g ← F_glu (tab3 B (2 * Co) L' y) Dim1;
                 s ← tzip fadd g (tab3 B Ci T (at3 x));
                 Ok (blk, tmap (λ v, fmul v (fsqrt fhalf)) s)
               else
                 '(a, b) ← tsplit (tsize Dim1 (tab3 B (2 * Co) L' y) `div` 2)
                                  Dim1 (tab3 B (2 * Co) L' y) ≫= unpack2;
                 let G := tmap fsigmoid b in
                 l ← tzip fmul G a;
                 r ← tzip fmul (tmap (λ v, fsub (of_Z 1) v) G)
                          (tab3 B Ci T (at3 x));
                 s ← tzip fadd l r;
                 Ok (blk, s)) →
            Q (forward drop blk x)).
  { intros Q HQ. rewrite <- (tab3_eta x B Ci T Hx) in HQ.
    unfold forward, _forward. rewrite Hconv, bind_Ok.
    cbn beta iota. rewrite bind_Ok.
    replace (if causal blk
             then tslice DimLast 0 (tsize DimLast x) (tab3 B (2 * Co) L y)
             else tab3 B (2 * Co) L y)
      with (tab3 B (2 * Co) L' y); [done|].
    unfold L'. destruct (causal blk); [|done].
    by rewrite trim_tab3, (tsize_DimLast_shape3 x B Ci T). }
  split_and!.
  - intros -> HL. apply Hpre. rewrite HL. destruct (glu blk).
    + rewrite F_glu_Dim1_tab3, bind_Ok by done.
      rewrite tzip_tab3, bind_Ok, tmap_tab3. done.
    + rewrite tsplit_Dim1_tab3, bind_Ok by done. cbn beta iota zeta.
      rewrite !tmap_tab3. rewrite !tzip_tab3, !bind_Ok.
      by rewrite tzip_tab3, bind_Ok.
  - intros Hne H1 H2. apply Hpre. destruct (glu blk).
    + rewrite F_glu_Dim1_tab3, bind_Ok by done.
      by rewrite tzip_channel_mismatch.
    + rewrite tsplit_Dim1_tab3, bind_Ok by done. cbn beta iota zeta.
      rewrite !tmap_tab3. rewrite tzip_tab3, bind_Ok.
      by rewrite tzip_channel_mismatch.
  - intros -> HL H1 H2. apply Hpre. destruct (glu blk).
    + rewrite F_glu_Dim1_tab3, bind_Ok by done.
      by rewrite tzip_time_mismatch.
    + rewrite tsplit_Dim1_tab3, bind_Ok by done. cbn beta iota zeta.
      rewrite !tmap_tab3. rewrite tzip_tab3, bind_Ok.
      by rewrite tzip_time_mismatch.
  - intros -> HCo1 HL. apply Hpre. rewrite HL. destruct (glu blk).
    + rewrite F_glu_Dim1_tab3, bind_Ok by done.
      rewrite tzip_channel_broadcast, bind_Ok, tmap_tab3 by done. done.
    + rewrite tsplit_Dim1_tab3, bind_Ok by done. cbn beta iota zeta.
      rewrite !tmap_tab3. rewrite tzip_tab3, bind_Ok.
      rewrite tzip_channel_broadcast, bind_Ok by done.
      by rewrite tzip_tab3, bind_Ok.
Qed.

End ForwardMore.

Section ForwardShapes.
Context `{Scalar F}.

(** The convolution either raises the shape error or returns the
    tabulated entries. *)
Lemma conv_forward_cases (m : layer F) (x : tensor3 F) (B C T : nat) :
  shape3 x B C T → 0 < B → 0 < C → Z.to_nat (l_in_channels m) = C →
  let k := Z.to_nat (l_kernel_size m) in
  let d := Z.to_nat (l_dilation m) in
  let p := Z.to_nat (l_padding m) in
  (conv_forward m x = Raise RuntimeError
   ∧ ¬ ((1 ≤ l_kernel_size m)%Z ∧ (1 ≤ l_dilation m)%Z ∧ (0 ≤ l_padding m)%Z
        ∧ d * (k - 1) + 1 ≤ T + 2 * p))
  ∨ (((1 ≤ l_kernel_size m)%Z ∧ (1 ≤ l_dilation m)%Z ∧ (0 ≤ l_padding m)%Z
      ∧ d * (k - 1) + 1 ≤ T + 2 * p)
     ∧ conv_forward m x
       = Ok (tab3 B (Z.to_nat (l_out_channels m)) (T + 2 * p - d * (k - 1))
                  (λ b o t, conv_entry m (x !!! b) o t))).
Proof.
  intros Hx HB HC Hin k d p.
  destruct (decide ((1 ≤ l_kernel_size m)%Z ∧ (1 ≤ l_dilation m)%Z
                    ∧ (0 ≤ l_padding m)%Z ∧ d * (k - 1) + 1 ≤ T + 2 * p))
    as [(Hk & Hd & Hp & HL) | Hno].
  - right. split; [done|]. by apply (conv_forward_tab m x B C T).
  - left. split; [|done]. unfold conv_forward.
    rewrite (tsize_Dim1_shape3 x B C T), (tsize_DimLast_shape3 x B C T) by done.
    fold k d p. repeat case_decide; try done. tauto.
Qed.

Lemma forward_conv_Raise (drop : F → tensor3 F → tensor3 F)
    (blk : HighwayConv1d F) (x : tensor3 F) (e : exn) :
  conv_forward (conv blk) (F_dropout drop x (dropout blk) (training blk))
    = Raise e →
  forward drop blk x = Raise e.
Proof. intros Hc. unfold forward, _forward. by rewrite Hc. Qed.

(** X10: a non-causal block with an odd kernel size and the default
    padding keeps the length: for an input of shape (B, C, T) with as many
    channels in as out it returns an output of shape (B, C, T), whose entry
    at [b, c, t] gates the convolution outputs [c] and [C + c] at step [t]
    with the input entry. *)
Theorem noncausal_odd_kernel_forward (drop : F → tensor3 F → tensor3 F)
    (blk : HighwayConv1d F) (x : tensor3 F) (B C T : nat) :
  causal blk = false →
  (1 ≤ l_kernel_size (conv blk))%Z → Z.odd (l_kernel_size (conv blk)) = true →
  (1 ≤ l_dilation (conv blk))%Z →
  l_padding (conv blk)
    = default_padding false (l_kernel_size (conv blk)) (l_dilation (conv blk)) →
  l_in_channels (conv blk) = Z.of_nat C →
  l_out_channels (conv blk) = (2 * Z.of_nat C)%Z →
  0 < B → 0 < C → 0 < T →
  shape3 x B C T →
  let xd := F_dropout drop x (dropout blk) (training blk) in
  shape3 xd B C T →
  ∃ out,
    forward drop blk x = Ok (blk, out)
    ∧ shape3 out B C T
    ∧ ∀ b c t, b < B → c < C → t < T →
        at3 out b c t
        = gate (glu blk) (conv_entry (conv blk) (xd !!! b) c t)
               (conv_entry (conv blk) (xd !!! b) (C + c) t) (at3 x b c t).
Proof.
  intros Hc Hk Hodd Hd Hp Hin Hout HB HC HT Hx xd Hxd.
  apply Z.odd_spec in Hodd as [j Hj].
  assert (Hdiv : ((l_kernel_size (conv blk) - 1) `div` 2 = j)%Z).
  { rewrite Hj. replace (2 * j + 1 - 1)%Z with (j * 2)%Z by lia.
    apply Z.div_mul. lia. }
  unfold default_padding in Hp. rewrite Hdiv in Hp.
  assert (HL : 2 * Z.to_nat (l_padding (conv blk))
               = Z.to_nat (l_dilation (conv blk))
                 * (Z.to_nat (l_kernel_size (conv blk)) - 1)) by nia.
  pose proof (conv_forward_tab (conv blk) xd B C T Hxd HB HC Hk Hd) as Hconv.
  rewrite HL in Hconv.
  replace (Z.to_nat (l_out_channels (conv blk))) with (2 * C) in Hconv by lia.
  replace (T + _ - _) with T in Hconv by lia.
  specialize (Hconv ltac:(nia) ltac:(lia) ltac:(lia)).
  destruct (forward_after_conv drop blk x B C C T T _ HB HC HC Hx Hconv)
    as (Hok & _).
  rewrite Hc in Hok. eexists. split; [by apply Hok|].
  split; [apply shape3_tab3|].
  intros b c t Hb Hct Ht. by rewrite at3_tab3.
Qed.

(** X11: a non-causal block with an even kernel size and the default
    padding loses [dilation] steps in the convolution, so the residual no
    longer fits: the batch pass raises the shape error (the one length
    left out, [T = dilation + 1], is the one where a single remaining step
    broadcasts). *)
Theorem noncausal_even_kernel_raises (drop : F → tensor3 F → tensor3 F)
    (blk : HighwayConv1d F) (x : tensor3 F) (B C T : nat) :
  causal blk = false →
  (1 ≤ l_kernel_size (conv blk))%Z → Z.even (l_kernel_size (conv blk)) = true →
  (1 ≤ l_dilation (conv blk))%Z →
  l_padding (conv blk)
    = default_padding false (l_kernel_size (conv blk)) (l_dilation (conv blk)) →
  l_in_channels (conv blk) = Z.of_nat C →
  l_out_channels (conv blk) = (2 * Z.of_nat C)%Z →
  0 < B → 0 < C →
  T ≠ Z.to_nat (l_dilation (conv blk)) + 1 →
  shape3 x B C T →
  shape3 (F_dropout drop x (dropout blk) (training blk)) B C T →
  forward drop blk x = Raise RuntimeError.
Proof.
  intros Hc Hk Hev Hd Hp Hin Hout HB HC HT Hx Hxd.
  apply Z.even_spec in Hev as [j Hj].
  assert (Hdiv : ((l_kernel_size (conv blk) - 1) `div` 2 = j - 1)%Z).
  { rewrite Hj. replace (2 * j - 1)%Z with (1 + (j - 1) * 2)%Z by lia.
    rewrite Z.div_add by lia. done. }
  unfold default_padding in Hp. rewrite Hdiv in Hp.
  assert (HL : Z.to_nat (l_dilation (conv blk))
               * (Z.to_nat (l_kernel_size (conv blk)) - 1)
               = 2 * Z.to_nat (l_padding (conv blk))
                 + Z.to_nat (l_dilation (conv blk))) by nia.
  destruct (conv_forward_cases (conv blk) _ B C T Hxd HB HC ltac:(lia))
    as [[Hraise _] | [(_ & _ & _ & Hguard) Hconv]].
  - by apply forward_conv_Raise.
  - rewrite HL in Hguard, Hconv.
    replace (Z.to_nat (l_out_channels (conv blk))) with (2 * C) in Hconv by lia.
    destruct (forward_after_conv drop blk x B C C T _ _ HB HC HC Hx Hconv)
      as (_ & _ & Hbad & _).
    rewrite Hc in Hbad. apply Hbad; lia.
Qed.

(** X12: channel counts in and out that differ (neither being 1) never
    give an output: the residual does not fit the gated half and the batch
    pass raises the shape error, whatever the kernel, padding and mode. *)
Theorem channel_mismatch_raises (drop : F → tensor3 F → tensor3 F)
    (blk : HighwayConv1d F) (x : tensor3 F) (B Ci Co T : nat) :
  l_in_channels (conv blk) = Z.of_nat Ci →
  l_out_channels (conv blk) = (2 * Z.of_nat Co)%Z →
  Ci ≠ Co → 2 ≤ Ci → 2 ≤ Co → 0 < B →
  shape3 x B Ci T →
  shape3 (F_dropout drop x (dropout blk) (training blk)) B Ci T →
  forward drop blk x = Raise RuntimeError.
Proof.
  intros Hin Hout Hne HCi HCo HB Hx Hxd.
  destruct (conv_forward_cases (conv blk) _ B Ci T Hxd HB ltac:(lia) ltac:(lia))
    as [[Hraise _] | [_ Hconv]].
  - by apply forward_conv_Raise.
  - replace (Z.to_nat (l_out_channels (conv blk))) with (2 * Co) in Hconv by lia.
    destruct (forward_after_conv drop blk x B Ci Co T _ _ HB ltac:(lia)
                ltac:(lia) Hx Hconv) as (_ & Hbad & _).
    apply Hbad; lia.
Qed.

(** X13: a single input channel is the exception: with [in_channels = 1]
    and several output channels a causal block does not raise, the one
    residual channel is broadcast to every output channel. *)
Theorem single_input_channel_broadcasts (drop : F → tensor3 F → tensor3 F)
    (blk : HighwayConv1d F) (x : tensor3 F) (B Co T : nat) :
  causal blk = true →
  (1 ≤ l_kernel_size (conv blk))%Z → (1 ≤ l_dilation (conv blk))%Z →
  l_padding (conv blk)
    = default_padding true (l_kernel_size (conv blk)) (l_dilation (conv blk)) →
  l_in_channels (conv blk) = 1%Z →
  l_out_channels (conv blk) = (2 * Z.of_nat Co)%Z →
  0 < B → 2 ≤ Co → 0 < T →
  shape3 x B 1 T →
  let xd := F_dropout drop x (dropout blk) (training blk) in
  shape3 xd B 1 T →
  ∃ out,
    forward drop blk x = Ok (blk, out)
    ∧ shape3 out B Co T
    ∧ ∀ b c t, b < B → c < Co → t < T →
        at3 out b c t
        = gate (glu blk) (conv_entry (conv blk) (xd !!! b) c t)
               (conv_entry (conv blk) (xd !!! b) (Co + c) t) (at3 x b 0 t).
Proof.
  intros Hc Hk Hd Hp Hin Hout HB HCo HT Hx xd Hxd.
  unfold default_padding in Hp.
  assert (HP : Z.to_nat (l_padding (conv blk))
               = Z.to_nat (l_dilation (conv blk))
                 * (Z.to_nat (l_kernel_size (conv blk)) - 1)) by nia.
  pose proof (conv_forward_tab (conv blk) xd B 1 T Hxd HB ltac:(lia) Hk Hd
                ltac:(nia) ltac:(lia) ltac:(nia)) as Hconv.
  replace (Z.to_nat (l_out_channels (conv blk))) with (2 * Co) in Hconv by lia.
  destruct (forward_after_conv drop blk x B 1 Co T _ _ HB ltac:(lia)
              ltac:(lia) Hx Hconv) as (_ & _ & _ & Hok).
  rewrite Hc in Hok. eexists. split; [apply Hok; nia|].
  split; [apply shape3_tab3|].
  intros b c t Hb Hct Ht. by rewrite at3_tab3.
Qed.

End ForwardShapes.

(** ** The block: causality and the buffer *)

Section CausalityAndBuffer.
Context `{Scalar F}.

(** The convolution entry of a causally padded input at step [t] reads
    the input up to step [t] only. *)
Lemma conv_entry_causal (m : layer F) (x x' : tensor3 F) (B C T b o t : nat) :
  (1 ≤ l_kernel_size m)%Z →
  Z.to_nat (l_padding m)
    = (Z.to_nat (l_kernel_size m) - 1) * Z.to_nat (l_dilation m) →
  shape3 x B C T → shape3 x' B C T → b < B → t < T →
  (∀ c s, c < C → s ≤ t → at3 x b c s = at3 x' b c s) →
  conv_entry m (x !!! b) o t = conv_entry m (x' !!! b) o t.
Proof.
  intros Hk Hp Hx Hx' Hb Ht Hagree. unfold conv_entry. rewrite Hp.
  rewrite <- (buffer_window_batch m x B C T b t) by done.
  rewrite <- (buffer_window_batch m x' B C T b t) by done.
  do 2 f_equal. unfold buffer_after, tab3.
  rewrite !lookup_total_tab by done.
  apply tab_ext. intros s Hs. apply tab_ext. intros c Hc.
  case_decide; [|done]. apply Hagree; lia.
Qed.

Lemma forward_causal_entries (drop : F → tensor3 F → tensor3 F)
    (blk : HighwayConv1d F) (x : tensor3 F) (B C T : nat) :
  causal blk = true → training blk = false →
  (1 ≤ l_kernel_size (conv blk))%Z → (1 ≤ l_dilation (conv blk))%Z →
  l_padding (conv blk)
    = default_padding true (l_kernel_size (conv blk)) (l_dilation (conv blk)) →
  l_in_channels (conv blk) = Z.of_nat C →
  l_out_channels (conv blk) = (2 * Z.of_nat C)%Z →
  0 < B → 0 < C → 0 < T →
  shape3 x B C T →
  forward drop blk x
  = Ok (blk, tab3 B C T (λ b c t, block_entry blk x C b c t)).
Proof.
  intros Hc Htr Hk Hd Hp Hin Hout HB HC HT Hx.
  destruct (causal_conv_trimmed (conv blk) x B C T Hk Hd Hp Hin Hout HB HC HT Hx)
    as (y0 & Hy0 & Htrim).
  rewrite (forward_entries drop blk x y0 B C T); try done.
  - rewrite Hc, (tsize_DimLast_shape3 x B C T), Htrim by done.
    do 2 f_equal. apply tab3_ext. intros b c t Hb Hct Ht.
    unfold block_entry. by rewrite !at3_tab3 by lia.
  - by rewrite Htr.
  - rewrite Hc, (tsize_DimLast_shape3 x B C T), Htrim by done.
    apply shape3_tab3.
Qed.

(** X14: a causal block sees no future time step: two inputs of the same
    shape that agree up to step [t] give batch outputs that agree at step
    [t] (evaluation mode, default padding). *)
Theorem causal_forward_ignores_future (drop : F → tensor3 F → tensor3 F)
    (blk : HighwayConv1d F) (x x' : tensor3 F) (B C T t : nat) :
  causal blk = true → training blk = false →
  (1 ≤ l_kernel_size (conv blk))%Z → (1 ≤ l_dilation (conv blk))%Z →
  l_padding (conv blk)
    = default_padding true (l_kernel_size (conv blk)) (l_dilation (conv blk)) →
  l_in_channels (conv blk) = Z.of_nat C →
  l_out_channels (conv blk) = (2 * Z.of_nat C)%Z →
  0 < B → 0 < C → t < T →
  shape3 x B C T → shape3 x' B C T →
  (∀ b c s, b < B → c < C → s ≤ t → at3 x b c s = at3 x' b c s) →
  ∃ out out',
    forward drop blk x = Ok (blk, out)
    ∧ forward drop blk x' = Ok (blk, out')
    ∧ ∀ b c, b < B → c < C → at3 out b c t = at3 out' b c t.
Proof.
  intros Hc Htr Hk Hd Hp Hin Hout HB HC Ht Hx Hx' Hagree.
  eexists _, _. split_and!.
  - apply (forward_causal_entries drop blk x B C T); try done. lia.
  - apply (forward_causal_entries drop blk x' B C T); try done. lia.
  - intros b c Hb Hct. rewrite !at3_tab3 by done. unfold block_entry.
    assert (HP : Z.to_nat (l_padding (conv blk))
                 = (Z.to_nat (l_kernel_size (conv blk)) - 1)
                   * Z.to_nat (l_dilation (conv blk))).
    { unfold default_padding in Hp. nia. }
    rewrite (conv_entry_causal (conv blk) x x' B C T b c t),
      (conv_entry_causal (conv blk) x x' B C T b (C + c) t);
      try done; try (intros; apply Hagree; done).
    by rewrite Hagree.
Qed.

(** An incremental call changes nothing of the block but the buffer of
    its convolution. *)
Lemma incremental_forward_state (drop : F → tensor3 F → tensor3 F)
    (blk blk' : HighwayConv1d F) (x y : tensor3 F) :
  incremental_forward drop blk x = Ok (blk', y) →
  ∃ buf, blk' = with_conv blk (with_buffer (conv blk) (Some buf)).
Proof.
  unfold incremental_forward, _forward.
  destruct (conv_incremental_forward _ _) as [[m out]|] eqn:Hconv; [|done].
  assert (Hm : ∃ buf, m = with_buffer (conv blk) (Some buf)).
  { unfold conv_incremental_forward in Hconv.
    case_decide; [|done].
    destruct (mapM _ _) as [newest|]; [|done]. rewrite bind_Ok in Hconv.
    case_decide; [|done]. injection Hconv as <- _. eauto. }
  destruct Hm as [buf ->]. rewrite bind_Ok. cbn beta iota.
  rewrite bind_Ok. cbn beta iota. cbn [glu with_conv].
  intros Hres. exists buf.
  destruct (glu blk).
  - destruct (F_glu _ _); [|done]. rewrite bind_Ok in Hres.
    destruct (tzip _ _ _); [|done]. rewrite bind_Ok in Hres.
    by injection Hres as <- _.
  - destruct (tsplit _ _ _ ≫= unpack2) as [[a b]|]; [|done].
    rewrite bind_Ok in Hres. cbn beta iota zeta in Hres.
    destruct (tzip fmul _ a); [|done]. rewrite bind_Ok in Hres.
    destruct (tzip fmul _ x); [|done]. rewrite bind_Ok in Hres.
    destruct (tzip fadd _ _); [|done]. rewrite bind_Ok in Hres.
    by injection Hres as <- _.
Qed.

Lemma incremental_run_state (drop : F → tensor3 F → tensor3 F)
    (steps : list (tensor3 F)) (blk blk' : HighwayConv1d F)
    (ys : list (tensor3 F)) :
  incremental_run drop blk steps = Ok (blk', ys) →
  clear_buffer blk' = clear_buffer blk ∧ length ys = length steps.
Proof.
  revert blk blk' ys. induction steps as [|x steps IH]; intros blk blk' ys.
  - cbn. by intros [= <- <-].
  - cbn [incremental_run].
    destruct (incremental_forward drop blk x) as [[blk1 y]|] eqn:Hstep; [|done].
    rewrite bind_Ok. cbn beta iota.
    destruct (incremental_run drop blk1 steps) as [[blk2 ys2]|] eqn:Hrun;
      [|done].
    rewrite bind_Ok. cbn beta iota. intros [= <- <-].
    apply IH in Hrun as [Hclear Hlen].
    apply incremental_forward_state in Hstep as [buf ->].
    split; [by rewrite Hclear | by cbn; rewrite Hlen].
Qed.

(** X15: [clear_buffer] forgets the decoded sequence: a block that has
    run any number of incremental calls is, once cleared, the block it was
    when cleared before those calls, so the next sequence (and any batch
    pass) comes out the same. *)
Theorem clear_buffer_forgets (drop drop' : F → tensor3 F → tensor3 F)
    (blk blk1 : HighwayConv1d F) (steps1 steps2 ys1 : list (tensor3 F))
    (x : tensor3 F) :
  incremental_run drop blk steps1 = Ok (blk1, ys1) →
  clear_buffer blk1 = clear_buffer blk
  ∧ incremental_run drop' (clear_buffer blk1) steps2
    = incremental_run drop' (clear_buffer blk) steps2
  ∧ forward drop' (clear_buffer blk1) x = forward drop' (clear_buffer blk) x.
Proof.
  intros Hrun. apply incremental_run_state in Hrun as [-> _]. done.
Qed.

End CausalityAndBuffer.

(** ** Runs of the further properties over the real numbers *)

Section RealRunsMore.
Open Scope R_scope.

Lemma shape3_ex_x23 : shape3 (F := R) ex_x23 1 2 3.
Proof. split; [done|]. repeat constructor. Qed.

Lemma sinusoidal_encode_entries_witness :
  ∃ y,
    sinusoidal_encode (F := R) (Mat [[0; 0; 0]; [1; 2; 3]]) 2 = Ok (Mat y)
    ∧ length y = 2%nat
    ∧ y !! 0%nat = Some [2 * 0; 2 * 0; 2 * 0]
    ∧ y !! 1%nat ≫= (.!! 1%nat) = Some (cos (2 * 2)).
Proof.
  destruct (sinusoidal_encode_entries (F := R) [[0; 0; 0]; [1; 2; 3]] 2 3)
    as (y & Hy & Hlen & _ & H0 & Hent).
  - repeat constructor.
  - exists y. split; [exact Hy|]. split; [exact Hlen|]. split; [exact H0|].
    apply (Hent 1%nat 1%nat 2); [lia | reflexivity].
Defined.

Lemma sinusoidal_encode_is_position_rate_witness :
  (SinusoidalEncoding_weight (F := R) 2 3 ≫= λ base, sinusoidal_encode base 2)
  = position_encoding_init 2 3 2 true.
Proof.
  apply (sinusoidal_encode_is_position_rate (F := R) 2 3 2).
  - apply Rmult_0_r.
  - intros a q. cbn. unfold Rdiv. ring.
Defined.

Lemma SinusoidalEncoding_forward_rows_witness :
  ∃ out,
    SinusoidalEncoding_init (F := R) 3 2 (Some 0%Z) None
      ≫= (λ self, SinusoidalEncoding_forward (λ _ _ m, m) self
                    [[0%Z; 2%Z]] 1)
    = Ok out
    ∧ length out = 1%nat.
Proof.
  destruct (SinusoidalEncoding_forward_rows (F := R) (λ _ _ m, m) 3 2
              (Some 0%Z) [[0%Z; 2%Z]] 1) as (out & Hout & Hlen & _).
  - lia.
  - repeat constructor; lia.
  - exists out. split; [exact Hout | exact Hlen].
Defined.

Lemma SinusoidalEncoding_forward_out_of_range_witness :
  ∃ e,
    SinusoidalEncoding_init (F := R) 3 2 (Some 0%Z) None
      ≫= (λ self, SinusoidalEncoding_forward (λ _ _ m, m) self
                    [[1%Z; 3%Z]] 1)
    = Raise e.
Proof.
  apply (SinusoidalEncoding_forward_out_of_range (F := R) (λ _ _ m, m) 3 2
           (Some 0%Z) [[1%Z; 3%Z]] 1 0 1 3%Z).
  - lia.
  - reflexivity.
  - right. reflexivity.
Defined.

Lemma get_mask_from_lengths_short_witness :
  ∃ mask,
    get_mask_from_lengths [[[()]; [()]; [()]]; [[()]; [()]; [()]]] [2%nat]
    = Ok mask
    ∧ mask_bools mask !! 1%nat ≫= (.!! 0%nat) = Some true.
Proof.
  destruct (get_mask_from_lengths_short
              [[[()]; [()]; [()]]; [[()]; [()]; [()]]] [2%nat] 2 3)
    as (mask & Hmask & _ & Hent).
  - reflexivity.
  - repeat constructor.
  - cbn. lia.
  - exists mask. split; [exact Hmask|]. apply (Hent 1%nat 0%nat); lia.
Defined.

Lemma get_mask_from_lengths_too_many_witness :
  get_mask_from_lengths [[[()]; [()]]] [1%nat; 2%nat] = Raise IndexError.
Proof.
  apply (get_mask_from_lengths_too_many [[[()]; [()]]] [1%nat; 2%nat]).
  cbn. lia.
Defined.




Lemma noncausal_odd_kernel_forward_witness :
  ∃ out,
    forward (F := R) no_drop (ex_block false true 2 2 3) ex_x23
      = Ok (ex_block false true 2 2 3, out)
    ∧ shape3 out 1 2 3.
Proof.
  destruct (noncausal_odd_kernel_forward (F := R) no_drop
              (ex_block false true 2 2 3) ex_x23 1 2 3)
    as (out & Hout & Hshape & _);
    try reflexivity; try (cbn; lia); try apply shape3_ex_x23.
  exists out. split; [exact Hout | exact Hshape].
Defined.

Lemma noncausal_even_kernel_raises_witness :
  forward (F := R) no_drop (ex_block false false 2 2 2) ex_x23
  = Raise RuntimeError.
Proof.
  apply (noncausal_even_kernel_raises (F := R) no_drop
           (ex_block false false 2 2 2) ex_x23 1 2 3);
    try reflexivity; try (cbn; lia); apply shape3_ex_x23.
Defined.

Lemma channel_mismatch_raises_witness :
  forward (F := R) no_drop (ex_block true false 2 3 3) ex_x23
  = Raise RuntimeError.
Proof.
  apply (channel_mismatch_raises (F := R) no_drop
           (ex_block true false 2 3 3) ex_x23 1 2 3 3);
    try reflexivity; try lia; apply shape3_ex_x23.
Defined.

Lemma single_input_channel_broadcasts_witness :
  ∃ out,
    forward (F := R) no_drop (ex_block true false 1 2 3) ex_x
      = Ok (ex_block true false 1 2 3, out)
    ∧ shape3 out 1 2 2.
Proof.
  destruct (single_input_channel_broadcasts (F := R) no_drop
              (ex_block true false 1 2 3) ex_x 1 2 2)
    as (out & Hout & Hshape & _);
    try reflexivity; try (cbn; lia); try apply shape3_ex_x.
  exists out. split; [exact Hout | exact Hshape].
Defined.

Lemma causal_forward_ignores_future_witness :
  ∃ out out',
    forward (F := R) no_drop (ex_blk true false) ex_x
      = Ok (ex_blk true false, out)
    ∧ forward (F := R) no_drop (ex_blk true false) [[[0; 7]]]
      = Ok (ex_blk true false, out')
    ∧ at3 out 0 0 0 = at3 out' 0 0 0.
Proof.
  destruct (causal_forward_ignores_future (F := R) no_drop
              (ex_blk true false) ex_x [[[0; 7]]] 1 1 2 0)
    as (out & out' & Hout & Hout' & Heq);
    try reflexivity; try (cbn; lia); try apply shape3_ex_x.
  - split; [done|]. repeat constructor.
  - intros b c s Hb Hc Hs.
    assert (b = 0%nat) as -> by lia. assert (c = 0%nat) as -> by lia.
    assert (s = 0%nat) as -> by lia. reflexivity.
  - exists out, out'. split; [exact Hout|]. split; [exact Hout'|].
    apply Heq; lia.
Defined.

Lemma clear_buffer_forgets_witness :
  ∃ blk1 ys1,
    incremental_run (F := R) no_drop (ex_blk true false)
                    [time_step ex_x 0; time_step ex_x 1]
    = Ok (blk1, ys1)
    ∧ clear_buffer blk1 = clear_buffer (ex_blk true false).
Proof.
  eexists _, _.
  assert (Hrun : incremental_run (F := R) no_drop (ex_blk true false)
                   [time_step ex_x 0; time_step ex_x 1]
                 = Ok (_, _)) by reflexivity.
  split; [exact Hrun|].
  apply (clear_buffer_forgets (F := R) no_drop no_drop (ex_blk true false) _
           [time_step ex_x 0; time_step ex_x 1] [] _ ex_x Hrun).
Defined.

End RealRunsMore.
